(** * Vprops: the scroll choreographer and the card carousel of [src/App.jsx]

    The development embeds two pieces of [App.jsx]:

    - the scroll choreographer set up by the second [useEffect] of [App]
      ([waypoints], [lerp], [getTargetFromScroll], [animate]), and
    - the card carousel [CardFan] ([startAutoSwitch], [stopAutoSwitch],
      [handleWheel], [handleMouseEnter], [handleMouseLeave]).

    JavaScript numbers are modelled as exact rationals ([Q]): a decimal
    literal such as [0.08] is the rational 8/100, the arithmetic operators
    are the exact ones, and "equal" on numbers is [Qeq] ([==]).  Rounding of
    IEEE doubles, infinities and NaN are outside this model. *)

From Stdlib Require Import QArith Qabs Qminmax Qpower Lqa.
From Stdlib Require Import ZArith Lia Bool List.
From Stdlib Require Strings.String.
Import ListNotations.

Local Open Scope Q_scope.

(** ** Numbers *)

Module Num.

(** [a < b] as a test; [Qle_bool] is the library's test for [a <= b]. *)
Definition Qlt_bool (a b : Q) : bool := negb (Qle_bool b a).

End Num.

Import Num.

(** ** Data model *)

(** The object [current] and the objects built by [getTargetFromScroll]:
    five numeric fields. *)
Module Pose.
Record t : Set := mk
  { x : Q; y : Q; rotX : Q; rotY : Q; scale : Q }.

(** Field-wise numeric equality. *)
Definition eq (p q : t) : Prop :=
  x p == x q /\ y p == y q /\ rotX p == rotX q /\ rotY p == rotY q
  /\ scale p == scale q.
End Pose.

(** An entry of the [waypoints] array. *)
Module Waypoint.
Record t : Set := mk
  { scrollStart : Q; x : Q; y : Q; rotX : Q; rotY : Q; scale : Q }.

(** The five pose fields of a waypoint.  [getTargetFromScroll] returns a
    waypoint object itself on two of its paths; its caller reads only
    these five fields. *)
Definition pose (w : t) : Pose.t :=
  Pose.mk (x w) (y w) (rotX w) (rotY w) (scale w).
End Waypoint.

(** The names of the five fields, for statements that range over them. *)
Module Field.
Inductive t : Set := x | y | rotX | rotY | scale.

Definition of_pose (f : t) (p : Pose.t) : Q :=
  match f with
  | x => Pose.x p
  | y => Pose.y p
  | rotX => Pose.rotX p
  | rotY => Pose.rotY p
  | scale => Pose.scale p
  end.

Definition of_waypoint (f : t) (w : Waypoint.t) : Q :=
  of_pose f (Waypoint.pose w).
End Field.

(** ** The choreographer *)

Module Choreographer.

Definition STICKY_THRESHOLD : Q := 150.

(** [const lerp = (start, end, factor) => start + (end - start) * factor] *)
Definition lerp (start end_ factor : Q) : Q :=
  start + (end_ - start) * factor.

Section Setup.

(** [const winHeight = window.innerHeight], read once when the effect
    runs. *)
Variable winHeight : Q.

Definition RELEASE_Y : Q := 56 - (STICKY_THRESHOLD / winHeight * 100).

Definition waypoints : list Waypoint.t :=
  [ Waypoint.mk 0         30 RELEASE_Y 0   0   1
  ; Waypoint.mk (8#100)   85 35        45  90  1
  ; Waypoint.mk (28#100)  15 55        90  180 1
  ; Waypoint.mk (48#100)  80 65        135 270 1
  ; Waypoint.mk (63#100)  50 50        180 360 1
  ; Waypoint.mk (78#100)  10 85        270 540 1
  ; Waypoint.mk 1         50 92        360 720 (3#10) ].

(** [waypoints[0]] and [waypoints[len - 1]]; the array is a non-empty
    literal, so the default is never used. *)
Definition dummy : Waypoint.t := Waypoint.mk 0 0 0 0 0 0.
Definition firstWaypoint : Waypoint.t := hd dummy waypoints.
Definition lastWaypoint : Waypoint.t := last waypoints dummy.

(** The [for] loop of [getTargetFromScroll]: scan the consecutive pairs
    [(waypoints[i], waypoints[i + 1])] for [i = 0 .. len - 2] and stop
    ([break]) at the first pair with
    [scrollVH >= waypoints[i].scrollStart &&
     scrollVH < waypoints[i + 1].scrollStart];
    [dflt] is the value [from] and [to] keep when no pair matches. *)
Fixpoint scan (ws : list Waypoint.t) (scrollVH : Q)
    (dflt : Waypoint.t * Waypoint.t) : Waypoint.t * Waypoint.t :=
  match ws with
  | wi :: ((wi1 :: _) as rest) =>
      if Qle_bool (Waypoint.scrollStart wi) scrollVH
         && Qlt_bool scrollVH (Waypoint.scrollStart wi1)
      then (wi, wi1)
      else scan rest scrollVH dflt
  | _ => dflt
  end.

(** [t = progress < 0.5 ? 2 * progress * progress
                        : 1 - Math.pow(-2 * progress + 2, 2) / 2] *)
Definition ease (progress : Q) : Q :=
  if Qlt_bool progress (1#2)
  then 2 * progress * progress
  else 1 - (-(2) * progress + 2) ^ 2 / 2.

(** The object literal returned at the end of [getTargetFromScroll]. *)
Definition interpolate (from to : Waypoint.t) (t : Q) : Pose.t :=
  {| Pose.x := Waypoint.x from + (Waypoint.x to - Waypoint.x from) * t
   ; Pose.y := Waypoint.y from + (Waypoint.y to - Waypoint.y from) * t
   ; Pose.rotX :=
       Waypoint.rotX from + (Waypoint.rotX to - Waypoint.rotX from) * t
   ; Pose.rotY :=
       Waypoint.rotY from + (Waypoint.rotY to - Waypoint.rotY from) * t
   ; Pose.scale :=
       Waypoint.scale from + (Waypoint.scale to - Waypoint.scale from) * t
  |}.

Definition getTargetFromScroll (scrollVH : Q) : Pose.t :=
  let '(from, to) := scan waypoints scrollVH (firstWaypoint, firstWaypoint) in
  if Qle_bool (Waypoint.scrollStart lastWaypoint) scrollVH
  then Waypoint.pose lastWaypoint
  else
    let range := Waypoint.scrollStart to - Waypoint.scrollStart from in
    if Qle_bool range 0 then Waypoint.pose from
    else
      let progress := (scrollVH - Waypoint.scrollStart from) / range in
      interpolate from to (ease progress).

(** *** The per-frame callback *)

(** What [animate] reads from the host on one tick: [window.scrollY]
    and [document.documentElement.scrollHeight]. *)
Record Host : Set := mkHost { scrollY : Q; scrollHeight : Q }.

(** The variables [animate] writes: [current], [wasInAnimationPhase]
    and the shared [modelRotationRefRef.current] (its [x] and [y]).  The
    style string written to the container and the frame request are
    functions of [current] and are left out. *)
Record State : Set := mkState
  { current : Pose.t
  ; wasInAnimationPhase : bool
  ; modelRotationRef : Q * Q }.

(** [let current = { x: 30, y: 56, rotX: 0, rotY: 0, scale: 1 }],
    [let wasInAnimationPhase = false],
    [modelRotationRefRef = { current: { x: 0, y: 0 } }]. *)
Definition init : State :=
  mkState (Pose.mk 30 56 0 0 1) false (0, 0).

(** [56 - (scrollY / winHeight * 100)] *)
Definition targetY (h : Host) : Q := 56 - (scrollY h / winHeight * 100).

(** [adjustedMax > 0 ? adjustedScroll / adjustedMax : 0] *)
Definition scrollProgress (h : Host) : Q :=
  let maxScroll := scrollHeight h - winHeight in
  let adjustedScroll := scrollY h - STICKY_THRESHOLD in
  let adjustedMax := maxScroll - STICKY_THRESHOLD in
  if Qlt_bool 0 adjustedMax then adjustedScroll / adjustedMax else 0.

(** [Math.max(0, Math.min(1, scrollProgress))], the argument of the
    waypoint lookup. *)
Definition clampedProgress (h : Host) : Q :=
  Qmax 0 (Qmin 1 (scrollProgress h)).

(** The test that clears the flag:
    [Math.abs(current.x - 30) < 0.05 && Math.abs(current.rotX) < 0.1
     && Math.abs(current.rotY) < 0.1]. *)
Definition settled (c : Pose.t) : bool :=
  Qlt_bool (Qabs (Pose.x c - 30)) (5#100)
  && Qlt_bool (Qabs (Pose.rotX c)) (1#10)
  && Qlt_bool (Qabs (Pose.rotY c)) (1#10).

Definition animate (h : Host) (s : State) : State :=
  let c := current s in
  if Qlt_bool (scrollY h) STICKY_THRESHOLD then
    let targetY := targetY h in
    if wasInAnimationPhase s then
      let c' :=
        {| Pose.x := lerp (Pose.x c) 30 (1#10)
         ; Pose.y := lerp (Pose.y c) targetY (1#10)
         ; Pose.rotX := lerp (Pose.rotX c) 0 (8#100)
         ; Pose.rotY := lerp (Pose.rotY c) 0 (8#100)
         ; Pose.scale := lerp (Pose.scale c) 1 (1#10) |} in
      {| current := c'
       ; wasInAnimationPhase := if settled c' then false else true
       ; modelRotationRef := (Pose.rotX c', Pose.rotY c') |}
    else
      let c' :=
        {| Pose.x := 30
         ; Pose.y := targetY
         ; Pose.rotX := 0
         ; Pose.rotY := 0
         ; Pose.scale := 1 |} in
      {| current := c'
       ; wasInAnimationPhase := false
       ; modelRotationRef := (Pose.rotX c', Pose.rotY c') |}
  else
    let target := getTargetFromScroll (clampedProgress h) in
    let c' :=
      {| Pose.x := lerp (Pose.x c) (Pose.x target) (6#100)
       ; Pose.y := lerp (Pose.y c) (Pose.y target) (6#100)
       ; Pose.rotX := lerp (Pose.rotX c) (Pose.rotX target) (5#100)
       ; Pose.rotY := lerp (Pose.rotY c) (Pose.rotY target) (5#100)
       ; Pose.scale := lerp (Pose.scale c) (Pose.scale target) (6#100) |} in
    {| current := c'
     ; wasInAnimationPhase := true
     ; modelRotationRef := (Pose.rotX c', Pose.rotY c') |}.

(** Successive frames: one host reading per tick, oldest first. *)
Definition run (hs : list Host) (s : State) : State :=
  fold_left (fun s h => animate h s) hs s.

(** The pose a tick steers to: the rest pose with the scroll-tracking
    [targetY] below the threshold, the waypoint lookup from the
    threshold on.  [animate] has no variable of this name in the sticky
    branch; the definition collects the values its two sticky
    assignments blocks use as [end] or assign. *)
Definition tickTarget (h : Host) : Pose.t :=
  if Qlt_bool (scrollY h) STICKY_THRESHOLD
  then Pose.mk 30 (targetY h) 0 0 1
  else getTargetFromScroll (clampedProgress h).

(** The blend factors of the blending block a tick runs: the factor of
    [x], [y] and [scale] first, the factor of [rotX] and [rotY] second. *)
Definition blendFactors (h : Host) : Q * Q :=
  if Qlt_bool (scrollY h) STICKY_THRESHOLD
  then (1#10, 8#100)
  else (6#100, 5#100).

(** The factor a pair of blend factors gives to a field. *)
Definition factorOf (fs : Q * Q) (f : Field.t) : Q :=
  match f with
  | Field.rotX | Field.rotY => snd fs
  | _ => fst fs
  end.

(** The five [lerp] assignments of a blending block, from the pose [c]
    toward the pose [g]. *)
Definition blendToward (c g : Pose.t) (fs : Q * Q) : Pose.t :=
  {| Pose.x := lerp (Pose.x c) (Pose.x g) (fst fs)
   ; Pose.y := lerp (Pose.y c) (Pose.y g) (fst fs)
   ; Pose.rotX := lerp (Pose.rotX c) (Pose.rotX g) (snd fs)
   ; Pose.rotY := lerp (Pose.rotY c) (Pose.rotY g) (snd fs)
   ; Pose.scale := lerp (Pose.scale c) (Pose.scale g) (fst fs) |}.

(** Whether a tick runs one of the two blending blocks (every field
    assigned through [lerp]) rather than the plain assignments. *)
Definition blends (h : Host) (s : State) : bool :=
  negb (Qlt_bool (scrollY h) STICKY_THRESHOLD) || wasInAnimationPhase s.

End Setup.

End Choreographer.

Import Choreographer.

(** ** The tick with its divisions and lookups recorded

    The same code as [getTargetFromScroll] and [animate], returning next to
    the result the divisions it evaluates and the arguments it passes to the
    waypoint lookup, in order of evaluation. *)

Module Traced.

Inductive Op : Set :=
| Divide (numerator denominator : Q)
| Lookup (scrollVH : Q).

Definition M (A : Type) : Type := (A * list Op)%type.

Definition ret {A : Type} (a : A) : M A := (a, []).

Definition bind {A B : Type} (m : M A) (k : A -> M B) : M B :=
  let '(a, ops) := m in
  let '(b, ops') := k a in
  (b, ops ++ ops').

Definition divide (a b : Q) : M Q := (a / b, [Divide a b]).

Definition lookup (scrollVH : Q) : M unit := (tt, [Lookup scrollVH]).

Declare Scope traced_scope.
Delimit Scope traced_scope with traced.
Notation "x <- m ;; k" := (bind m (fun x => k))
  (at level 61, m at next level, right associativity) : traced_scope.
Local Open Scope traced_scope.

Section Setup.

Variable winHeight : Q.

Definition getTargetFromScroll (scrollVH : Q) : M Pose.t :=
  _ <- lookup scrollVH ;;
  let '(from, to) :=
    scan (waypoints winHeight) scrollVH
         (firstWaypoint winHeight, firstWaypoint winHeight) in
  if Qle_bool (Waypoint.scrollStart (lastWaypoint winHeight)) scrollVH
  then ret (Waypoint.pose (lastWaypoint winHeight))
  else
    let range := Waypoint.scrollStart to - Waypoint.scrollStart from in
    if Qle_bool range 0 then ret (Waypoint.pose from)
    else
      progress <- divide (scrollVH - Waypoint.scrollStart from) range ;;
      ret (interpolate from to (ease progress)).

Definition targetY (h : Host) : M Q :=
  q <- divide (scrollY h) winHeight ;;
  ret (56 - (q * 100)).

Definition scrollProgress (h : Host) : M Q :=
  let maxScroll := scrollHeight h - winHeight in
  let adjustedScroll := scrollY h - STICKY_THRESHOLD in
  let adjustedMax := maxScroll - STICKY_THRESHOLD in
  if Qlt_bool 0 adjustedMax then divide adjustedScroll adjustedMax else ret 0.

Definition animate (h : Host) (s : State) : M State :=
  let c := current s in
  if Qlt_bool (scrollY h) STICKY_THRESHOLD then
    targetY <- targetY h ;;
    if wasInAnimationPhase s then
      let c' :=
        {| Pose.x := lerp (Pose.x c) 30 (1#10)
         ; Pose.y := lerp (Pose.y c) targetY (1#10)
         ; Pose.rotX := lerp (Pose.rotX c) 0 (8#100)
         ; Pose.rotY := lerp (Pose.rotY c) 0 (8#100)
         ; Pose.scale := lerp (Pose.scale c) 1 (1#10) |} in
      ret {| current := c'
           ; wasInAnimationPhase := if settled c' then false else true
           ; modelRotationRef := (Pose.rotX c', Pose.rotY c') |}
    else
      let c' :=
        {| Pose.x := 30
         ; Pose.y := targetY
         ; Pose.rotX := 0
         ; Pose.rotY := 0
         ; Pose.scale := 1 |} in
      ret {| current := c'
           ; wasInAnimationPhase := false
           ; modelRotationRef := (Pose.rotX c', Pose.rotY c') |}
  else
    scrollProgress <- scrollProgress h ;;
    target <- getTargetFromScroll (Qmax 0 (Qmin 1 scrollProgress)) ;;
    let c' :=
      {| Pose.x := lerp (Pose.x c) (Pose.x target) (6#100)
       ; Pose.y := lerp (Pose.y c) (Pose.y target) (6#100)
       ; Pose.rotX := lerp (Pose.rotX c) (Pose.rotX target) (5#100)
       ; Pose.rotY := lerp (Pose.rotY c) (Pose.rotY target) (5#100)
       ; Pose.scale := lerp (Pose.scale c) (Pose.scale target) (6#100) |} in
    ret {| current := c'
         ; wasInAnimationPhase := true
         ; modelRotationRef := (Pose.rotX c', Pose.rotY c') |}.

End Setup.

(** A recorded operation is in order when a division has a non-zero
    divisor and a lookup has its argument in [[0, 1]]. *)
Definition in_order (op : Op) : Prop :=
  match op with
  | Divide _ d => ~ d == 0
  | Lookup p => 0 <= p /\ p <= 1
  end.

End Traced.

(** ** The card carousel [CardFan] *)

Module CardFan.

Local Open Scope Z_scope.

(** The component's variables and the part of the host they talk to:
    [activeCard] (React state), the refs [isHoveringRef], [scrollAccum] and
    [intervalRef], and the host's interval timers: [timers] lists the ids
    [setInterval] has handed out and [clearInterval] has not yet cancelled,
    [nextTimer] is the id the next [setInterval] returns (ids are positive,
    hence truthy). *)
Record State : Set := mkState
  { activeCard : Z
  ; isHovering : bool
  ; scrollAccum : Q
  ; intervalRef : option positive
  ; timers : list positive
  ; nextTimer : positive }.

(** [prev => prev >= 6 ? 1 : prev + 1] *)
Definition next (prev : Z) : Z := if prev >=? 6 then 1 else prev + 1.

(** [prev => prev <= 1 ? 6 : prev - 1] *)
Definition back (prev : Z) : Z := if prev <=? 1 then 6 else prev - 1.

Definition setActiveCard (f : Z -> Z) (s : State) : State :=
  {| activeCard := f (activeCard s)
   ; isHovering := isHovering s
   ; scrollAccum := scrollAccum s
   ; intervalRef := intervalRef s
   ; timers := timers s
   ; nextTimer := nextTimer s |}.

Definition setScrollAccum (a : Q) (s : State) : State :=
  {| activeCard := activeCard s
   ; isHovering := isHovering s
   ; scrollAccum := a
   ; intervalRef := intervalRef s
   ; timers := timers s
   ; nextTimer := nextTimer s |}.

Definition setIsHovering (b : bool) (s : State) : State :=
  {| activeCard := activeCard s
   ; isHovering := b
   ; scrollAccum := scrollAccum s
   ; intervalRef := intervalRef s
   ; timers := timers s
   ; nextTimer := nextTimer s |}.

(** [if (intervalRef.current) return;
     intervalRef.current = setInterval(..., 4000)] *)
Definition startAutoSwitch (s : State) : State :=
  match intervalRef s with
  | Some _ => s
  | None =>
      {| activeCard := activeCard s
       ; isHovering := isHovering s
       ; scrollAccum := scrollAccum s
       ; intervalRef := Some (nextTimer s)
       ; timers := nextTimer s :: timers s
       ; nextTimer := Pos.succ (nextTimer s) |}
  end.

(** [if (intervalRef.current) { clearInterval(intervalRef.current);
                                intervalRef.current = null }] *)
Definition stopAutoSwitch (s : State) : State :=
  match intervalRef s with
  | Some id =>
      {| activeCard := activeCard s
       ; isHovering := isHovering s
       ; scrollAccum := scrollAccum s
       ; intervalRef := None
       ; timers := filter (fun t => negb (Pos.eqb t id)) (timers s)
       ; nextTimer := nextTimer s |}
  | None => s
  end.

(** The interval callback, run by the host when the timer [id] is due; a
    cancelled timer does not fire. *)
Definition fire (id : positive) (s : State) : State :=
  if existsb (Pos.eqb id) (timers s) then setActiveCard next s else s.

(** [e.deltaY || e.deltaX] *)
Definition delta (deltaY deltaX : Q) : Q :=
  if Qeq_bool deltaY 0 then deltaX else deltaY.

Definition handleWheel (deltaY deltaX : Q) (s : State) : State :=
  if negb (isHovering s) then s
  else
    let s1 := setScrollAccum (scrollAccum s + delta deltaY deltaX)%Q s in
    if Qlt_bool 80 (scrollAccum s1) then
      setScrollAccum 0 (setActiveCard next s1)
    else if Qlt_bool (scrollAccum s1) (-(80)) then
      setScrollAccum 0 (setActiveCard back s1)
    else s1.

Definition handleMouseEnter (s : State) : State :=
  stopAutoSwitch (setIsHovering true s).

Definition handleMouseLeave (s : State) : State :=
  startAutoSwitch (setScrollAccum 0 (setIsHovering false s)).

(** [useState(1)], [useRef(false)], [useRef(0)], [useRef(null)], before
    any timer exists. *)
Definition initial : State :=
  {| activeCard := 1
   ; isHovering := false
   ; scrollAccum := 0
   ; intervalRef := None
   ; timers := []
   ; nextTimer := 1%positive |}.

(** The mount effect: [useEffect(() => { startAutoSwitch(); ... }, [])]. *)
Definition mounted : State := startAutoSwitch initial.

(** What can happen to a mounted carousel. *)
Inductive Event : Set :=
| Fire (id : positive)
| MouseEnter
| MouseLeave
| Wheel (deltaY deltaX : Q).

Definition step (e : Event) (s : State) : State :=
  match e with
  | Fire id => fire id s
  | MouseEnter => handleMouseEnter s
  | MouseLeave => handleMouseLeave s
  | Wheel dy dx => handleWheel dy dx s
  end.

Definition run (es : list Event) (s : State) : State :=
  fold_left (fun s e => step e s) es s.

(** The number of times the interval callback runs along [es]. *)
Fixpoint autoAdvances (es : list Event) (s : State) : nat :=
  match es with
  | [] => 0
  | e :: es' =>
      (match e with
       | Fire id => if existsb (Pos.eqb id) (timers s) then 1 else 0
       | _ => 0
       end + autoAdvances es' (step e s))%nat
  end.

Definition is_leave (e : Event) : bool :=
  match e with MouseLeave => true | _ => false end.

Definition is_hover (e : Event) : bool :=
  match e with MouseEnter | MouseLeave => true | _ => false end.


(** What every reachable carousel state satisfies: the active card is one
    of the six, and the host's live timers are exactly the one the ref
    holds, if any. *)
Definition consistent (s : State) : Prop :=
  1 <= activeCard s <= 6
  /\ timers s = match intervalRef s with Some id => [id] | None => [] end.

(** The auto-advance interval is cancelled. *)
Definition paused (s : State) : Prop :=
  intervalRef s = None /\ timers s = [].

End CardFan.
(** ** The range the pose keeps *)

Module Envelope.

(** The smallest and largest value of x, rotX, rotY and scale over the
    waypoints and the rest pose: x between 10 and 85, rotX between 0 and
    360, rotY between 0 and 720, scale between 0.3 and 1. *)
Definition holds (c : Pose.t) : Prop :=
  (10 <= Pose.x c /\ Pose.x c <= 85)
  /\ (0 <= Pose.rotX c /\ Pose.rotX c <= 360)
  /\ (0 <= Pose.rotY c /\ Pose.rotY c <= 720)
  /\ (3#10 <= Pose.scale c /\ Pose.scale c <= 1).

End Envelope.

(** A host reading of the sticky regime: [scrollY < STICKY_THRESHOLD]. *)
Definition belowThreshold (h : Choreographer.Host) : Prop :=
  Choreographer.scrollY h < Choreographer.STICKY_THRESHOLD.

(** ** The client marquee of [App] *)

Module Marquee.

(** [marqueePaused] (React state), [marqueeTimeoutRef], and the host's
    timeouts: [pending] lists the ids [setTimeout] has handed out that have
    neither fired nor been cleared, [nextTimeout] is the id the next
    [setTimeout] returns. *)
Record State : Set := mkState
  { marqueePaused : bool
  ; marqueeTimeoutRef : option positive
  ; pending : list positive
  ; nextTimeout : positive }.

(** [useState(false)], [useRef(null)], no timeout scheduled. *)
Definition initial : State :=
  {| marqueePaused := false
   ; marqueeTimeoutRef := None
   ; pending := []
   ; nextTimeout := 1%positive |}.

Definition without (id : positive) (ids : list positive) : list positive :=
  filter (fun t => negb (Pos.eqb t id)) ids.

(** [marqueeTimeoutRef.current = setTimeout(() => setMarqueePaused(true),
    100)]: the ref is overwritten, whatever it held. *)
Definition handleMarqueeEnter (s : State) : State :=
  {| marqueePaused := marqueePaused s
   ; marqueeTimeoutRef := Some (nextTimeout s)
   ; pending := nextTimeout s :: pending s
   ; nextTimeout := Pos.succ (nextTimeout s) |}.

(** [if (marqueeTimeoutRef.current) clearTimeout(marqueeTimeoutRef.current);
     setMarqueePaused(false)]: the ref keeps its value. *)
Definition handleMarqueeLeave (s : State) : State :=
  {| marqueePaused := false
   ; marqueeTimeoutRef := marqueeTimeoutRef s
   ; pending :=
       match marqueeTimeoutRef s with
       | Some id => without id (pending s)
       | None => pending s
       end
   ; nextTimeout := nextTimeout s |}.

(** The timeout callback [() => setMarqueePaused(true)], run by the host
    when the timeout [id] is due; a timeout fires once, and a cleared one
    does not fire. *)
Definition expire (id : positive) (s : State) : State :=
  if existsb (Pos.eqb id) (pending s)
  then {| marqueePaused := true
        ; marqueeTimeoutRef := marqueeTimeoutRef s
        ; pending := without id (pending s)
        ; nextTimeout := nextTimeout s |}
  else s.

Inductive Event : Set :=
| Enter
| Leave
| Expire (id : positive).

Definition step (e : Event) (s : State) : State :=
  match e with
  | Enter => handleMarqueeEnter s
  | Leave => handleMarqueeLeave s
  | Expire id => expire id s
  end.

Definition run (es : list Event) (s : State) : State :=
  fold_left (fun s e => step e s) es s.

(** Where the pointer is after the events [es], having been inside the
    track or not ([inside]) before them; [None] when the events are not
    ones a pointer can produce, an enter while inside or a leave while
    outside. *)
Fixpoint pointer (inside : bool) (es : list Event) : option bool :=
  match es with
  | [] => Some inside
  | Enter :: es' => if inside then None else pointer true es'
  | Leave :: es' => if inside then pointer false es' else None
  | Expire _ :: es' => pointer inside es'
  end.

(** What the marquee state looks like with the pointer outside the track
    (running, nothing scheduled) and inside it (at most the timeout the ref
    holds is scheduled, and none once the marquee is paused). *)
Definition orderly (inside : bool) (s : State) : Prop :=
  if inside
  then (pending s = []
        \/ exists id : positive,
             pending s = [id] /\ marqueeTimeoutRef s = Some id)
       /\ (marqueePaused s = true -> pending s = [])
  else marqueePaused s = false /\ pending s = [].

End Marquee.

(** ** The contact form of [App] *)

Module Form.

Import Stdlib.Strings.String.

(** The object [formData]: its keys in insertion order with their
    values. *)
Definition FormData : Set := list (string * string).

(** [useState({ name: '', email: '', project: '', message: '' })] *)
Definition initial : FormData :=
  [ ("name"%string, EmptyString)
  ; ("email"%string, EmptyString)
  ; ("project"%string, EmptyString)
  ; ("message"%string, EmptyString) ].

(** [obj[key]] for a key of the object's own; [None] when the object has
    no own property [key]. *)
Fixpoint get (key : string) (obj : FormData) : option string :=
  match obj with
  | [] => None
  | (k, v) :: rest => if String.eqb k key then Some v else get key rest
  end.

(** [{ ...obj, [key]: value }]: a key the object has keeps its place and
    takes the new value, a new key is added last.  That is the order of the
    keys of the JavaScript object for keys that are not array indices
    (strings of decimal digits, which JavaScript lists first); the list
    does not model those, and the statements about a new key leave them
    out through [digitFirst]. *)
Fixpoint set (key value : string) (obj : FormData) : FormData :=
  match obj with
  | [] => [(key, value)]
  | (k, v) :: rest =>
      if String.eqb k key then (k, value) :: rest
      else (k, v) :: set key value rest
  end.

(** Whether the key starts with a decimal digit, as every array index
    does. *)
Definition digitFirst (key : string) : bool :=
  match key with
  | EmptyString => false
  | String c _ =>
      Nat.leb 48 (Ascii.nat_of_ascii c) && Nat.leb (Ascii.nat_of_ascii c) 57
  end.

(** [Object.keys(obj)] *)
Definition keys (obj : FormData) : list string := map fst obj.

(** [setFormData({ ...formData, [e.target.name]: e.target.value })] with
    [name] and [value] the two fields read from the event. *)
Definition handleChange (name value : string) (formData : FormData)
    : FormData :=
  set name value formData.

(** Successive change events, oldest first; each handler call reads the
    [formData] the previous one set (the component renders again between
    two input events). *)
Definition changes (es : list (string * string)) (formData : FormData)
    : FormData :=
  fold_left (fun fd e => handleChange (fst e) (snd e) fd) es formData.

(** The value of the last of the events [es] that names [key], if one
    does; [acc] is the answer when none does. *)
Definition latest (key : string) (es : list (string * string))
    (acc : option string) : option string :=
  fold_left
    (fun acc e => if String.eqb (fst e) key then Some (snd e) else acc)
    es acc.

End Form.

(** ** Wheel movements over the carousel *)

Module Wheels.

(** The wheel events with the given [(deltaY, deltaX)] pairs. *)
Definition events (ds : list (Q * Q)) : list CardFan.Event :=
  map (fun d => CardFan.Wheel (fst d) (snd d)) ds.

(** The running total after the movements [ds], starting from [accum]. *)
Definition total (accum : Q) (ds : list (Q * Q)) : Q :=
  fold_left (fun a d => a + CardFan.delta (fst d) (snd d)) ds accum.

(** Every running total, starting from [accum], stays within 80 of 0. *)
Fixpoint small (accum : Q) (ds : list (Q * Q)) : Prop :=
  match ds with
  | [] => True
  | d :: ds' =>
      let a := accum + CardFan.delta (fst d) (snd d) in
      (-(80) <= a /\ a <= 80) /\ small a ds'
  end.

(** A whole number.  Sums of whole numbers of this size are the same in
    the doubles of the source as in the arithmetic of the model. *)
Definition whole (q : Q) : Prop := exists z : Z, q == inject_Z z.

(** Both deltas of every movement are whole numbers. *)
Definition wholeDeltas (ds : list (Q * Q)) : Prop :=
  Forall (fun d => whole (fst d) /\ whole (snd d)) ds.

(** The accumulator is within 80 of 0. *)
Definition accumBounded (s : CardFan.State) : Prop :=
  -(80) <= CardFan.scrollAccum s /\ CardFan.scrollAccum s <= 80.

(** The interval is cancelled exactly while the pointer is over a card. *)
Definition hoverPauses (s : CardFan.State) : Prop :=
  CardFan.intervalRef s = None <-> CardFan.isHovering s = true.

End Wheels.

(** ** Facts about the numeric tests *)

Section NumFacts.

Lemma Qlt_bool_iff (a b : Q) : Qlt_bool a b = true <-> a < b.
Proof.
unfold Qlt_bool. rewrite negb_true_iff.
split; intros H.
- apply Qnot_le_lt. intros Hle. apply Qle_bool_iff in Hle. congruence.
- destruct (Qle_bool b a) eqn:E; [|reflexivity].
  apply Qle_bool_iff in E. lra.
Qed.

Lemma Qlt_bool_false_iff (a b : Q) : Qlt_bool a b = false <-> b <= a.
Proof.
unfold Qlt_bool. rewrite negb_false_iff. apply Qle_bool_iff.
Qed.

Lemma Qle_bool_false_iff (a b : Q) : Qle_bool a b = false <-> b < a.
Proof.
split; intros H.
- apply Qnot_le_lt. intros Hle. apply Qle_bool_iff in Hle. congruence.
- destruct (Qle_bool a b) eqn:E; [|reflexivity].
  apply Qle_bool_iff in E. lra.
Qed.

(** The two reflection lemmas in the shape [destruct] likes. *)
Lemma Qle_bool_spec (a b : Q) : BoolSpec (a <= b) (b < a) (Qle_bool a b).
Proof.
destruct (Qle_bool a b) eqn:E; constructor.
- now apply Qle_bool_iff.
- now apply Qle_bool_false_iff.
Qed.

Lemma Qlt_bool_spec (a b : Q) : BoolSpec (a < b) (b <= a) (Qlt_bool a b).
Proof.
destruct (Qlt_bool a b) eqn:E; constructor.
- now apply Qlt_bool_iff.
- now apply Qlt_bool_false_iff.
Qed.

End NumFacts.

(** Decide the numeric tests in the goal from the hypotheses. *)
Ltac qtest :=
  repeat match goal with
  | |- context [Qle_bool ?a ?b] =>
      destruct (Qle_bool_spec a b); cbn [andb orb negb]; try lra
  | |- context [Num.Qlt_bool ?a ?b] =>
      destruct (Qlt_bool_spec a b); cbn [andb orb negb]; try lra
  end.

(** ** The waypoint lookup *)

Section Lookup.

Import Choreographer.

Variable winHeight : Q.

Local Abbreviation wp i := (nth i (waypoints winHeight) dummy).

(** Between two consecutive waypoints the lookup is the eased
    interpolation of exactly that pair. *)
Lemma getTarget_segment (i : nat) (p : Q) :
  (i < 6)%nat ->
  Waypoint.scrollStart (wp i) <= p ->
  p < Waypoint.scrollStart (wp (S i)) ->
  getTargetFromScroll winHeight p
  = interpolate (wp i) (wp (S i))
      (ease ((p - Waypoint.scrollStart (wp i))
             / (Waypoint.scrollStart (wp (S i)) - Waypoint.scrollStart (wp i)))).
Proof.
  intros Hi Hlo Hhi.
  destruct i as [|[|[|[|[|[|i]]]]]]; try lia;
    cbn [nth waypoints Waypoint.scrollStart] in Hlo, Hhi;
    unfold getTargetFromScroll, lastWaypoint, firstWaypoint, waypoints;
    cbn [scan last hd nth Waypoint.scrollStart];
    qtest; cbn [Waypoint.scrollStart] in *; try lra; qtest; reflexivity.
Qed.

End Lookup.
(** ** Facts about the easing curve *)

Section Ease.

Import Choreographer.

Lemma Qsquare (a : Q) : a ^ 2 == a * a.
Proof. reflexivity. Qed.

Lemma ease_low (p : Q) : p < 1#2 -> ease p = 2 * p * p.
Proof. intros H. unfold ease. qtest. reflexivity. Qed.

Lemma ease_high (p : Q) : 1#2 <= p -> ease p == 1 - 2 * (1 - p) * (1 - p).
Proof.
  intros H. unfold ease. qtest. rewrite Qsquare. field.
Qed.

Lemma ease_zero (p : Q) : p == 0 -> ease p == 0.
Proof. intros H. rewrite ease_low by lra. rewrite H. ring. Qed.

Lemma ease_one (p : Q) : p == 1 -> ease p == 1.
Proof. intros H. rewrite ease_high by lra. rewrite H. ring. Qed.

Lemma ease_range (p : Q) : 0 <= p -> p <= 1 -> 0 <= ease p /\ ease p <= 1.
Proof.
  intros H0 H1. destruct (Qlt_le_dec p (1#2)) as [Hl|Hh].
  - rewrite ease_low by assumption. split; nra.
  - rewrite ease_high by assumption. split; nra.
Qed.

Lemma ease_monotone (p q : Q) :
  0 <= p -> p <= q -> q <= 1 -> ease p <= ease q.
Proof.
  intros H0 Hpq H1.
  destruct (Qlt_le_dec p (1#2)) as [Hp|Hp];
    destruct (Qlt_le_dec q (1#2)) as [Hq|Hq]; try lra.
  - rewrite !ease_low by assumption. nra.
  - rewrite ease_low, ease_high by assumption. nra.
  - rewrite !ease_high by assumption. nra.
Qed.

Lemma Qdiv_le_mono (a b r : Q) : 0 < r -> a <= b -> a / r <= b / r.
Proof.
  intros Hr Hab. unfold Qdiv. apply Qmult_le_compat_r; [assumption|].
  apply Qinv_le_0_compat. lra.
Qed.

End Ease.

(** ** The lookup at and between waypoints *)

Section Waypoints.

Import Choreographer.

Variable winHeight : Q.

Local Abbreviation wp i := (nth i (waypoints winHeight) dummy).
Local Abbreviation start i := (Waypoint.scrollStart (wp i)).

Lemma interpolate_zero (a b : Waypoint.t) (t : Q) :
  t == 0 -> Pose.eq (interpolate a b t) (Waypoint.pose a).
Proof.
  intros Ht. unfold Pose.eq, interpolate; cbn.
  rewrite Ht. repeat split; ring.
Qed.

Lemma interpolate_field (f : Field.t) (a b : Waypoint.t) (t : Q) :
  Field.of_pose f (interpolate a b t)
  = Field.of_waypoint f a
    + (Field.of_waypoint f b - Field.of_waypoint f a) * t.
Proof. destruct f; reflexivity. Qed.

Lemma pose_eq_field (f : Field.t) (p q : Pose.t) :
  Pose.eq p q -> Field.of_pose f p == Field.of_pose f q.
Proof. intros (Hx & Hy & Hrx & Hry & Hs). destruct f; assumption. Qed.

Lemma start_increasing (i : nat) : (i < 6)%nat -> start i < start (S i).
Proof.
  intros Hi. destruct i as [|[|[|[|[|[|i]]]]]]; try lia; cbn; lra.
Qed.

(** From the last waypoint's [scrollStart] on, the lookup returns the last
    waypoint: the loop matches no pair and the test after it succeeds. *)
Lemma getTarget_from_last (p : Q) :
  Waypoint.scrollStart (lastWaypoint winHeight) <= p ->
  getTargetFromScroll winHeight p = Waypoint.pose (lastWaypoint winHeight).
Proof.
  intros Hp. cbn in Hp.
  unfold getTargetFromScroll, lastWaypoint, firstWaypoint, waypoints.
  cbn [scan last hd Waypoint.scrollStart].
  qtest; reflexivity.
Qed.

(** At any number equal to the [scrollStart] of waypoint [i], the lookup
    yields the fields of waypoint [i]. *)
Lemma getTarget_at_start (i : nat) (p : Q) :
  (i <= 6)%nat -> p == start i ->
  Pose.eq (getTargetFromScroll winHeight p) (Waypoint.pose (wp i)).
Proof.
  intros Hi Hp.
  destruct (Nat.eq_dec i 6) as [->|Hne].
  - rewrite getTarget_from_last by (cbn in *; lra).
    repeat split; reflexivity.
  - assert (Hlt : (i < 6)%nat) by lia.
    pose proof (start_increasing i Hlt) as Hinc.
    rewrite (getTarget_segment winHeight i p Hlt) by lra.
    apply interpolate_zero, ease_zero.
    rewrite Hp. field. lra.
Qed.

(** Over the closed interval between waypoints [i] and [i + 1] the lookup
    is, field by field, the blend of the two waypoints by the eased
    fraction. *)
Lemma getTarget_between (i : nat) (p : Q) (f : Field.t) :
  (i < 6)%nat -> start i <= p -> p <= start (S i) ->
  Field.of_pose f (getTargetFromScroll winHeight p)
  == Field.of_waypoint f (wp i)
     + (Field.of_waypoint f (wp (S i)) - Field.of_waypoint f (wp i))
       * ease ((p - start i) / (start (S i) - start i)).
Proof.
  intros Hi Hlo Hhi.
  pose proof (start_increasing i Hi) as Hinc.
  destruct (Qlt_le_dec p (start (S i))) as [Hlt|Hge].
  - rewrite (getTarget_segment winHeight i p Hi Hlo Hlt).
    rewrite interpolate_field. reflexivity.
  - assert (Hp : p == start (S i)) by lra.
    rewrite (pose_eq_field f _ _ (getTarget_at_start (S i) p ltac:(lia) Hp)).
    rewrite ease_one.
    + unfold Field.of_waypoint. ring.
    + rewrite Hp. field. lra.
Qed.

(** Every progress in [[0, 1)] lies between two consecutive waypoints, so
    for such a progress the loop finds a pair with a positive range and the
    [range <= 0] return of the lookup is not taken. *)
Lemma bracket_exists (p : Q) :
  0 <= p -> p < 1 ->
  exists i : nat, (i < 6)%nat /\ start i <= p /\ p < start (S i).
Proof.
  intros H0 H1.
  destruct (Qlt_le_dec p (8#100)); [exists 0%nat; cbn; split; [lia|lra]|].
  destruct (Qlt_le_dec p (28#100)); [exists 1%nat; cbn; split; [lia|lra]|].
  destruct (Qlt_le_dec p (48#100)); [exists 2%nat; cbn; split; [lia|lra]|].
  destruct (Qlt_le_dec p (63#100)); [exists 3%nat; cbn; split; [lia|lra]|].
  destruct (Qlt_le_dec p (78#100)); [exists 4%nat; cbn; split; [lia|lra]|].
  exists 5%nat; cbn; split; [lia|lra].
Qed.

Lemma fraction_range (i : nat) (p : Q) :
  (i < 6)%nat -> start i <= p -> p <= start (S i) ->
  0 <= (p - start i) / (start (S i) - start i)
  /\ (p - start i) / (start (S i) - start i) <= 1.
Proof.
  intros Hi Hlo Hhi.
  pose proof (start_increasing i Hi) as Hinc.
  split.
  - apply Qle_shift_div_l; lra.
  - apply Qle_shift_div_r; lra.
Qed.

End Waypoints.

(** ** One tick of [animate] *)

Section Tick.

Import Choreographer.

Variable winHeight : Q.

Local Abbreviation animate := (Choreographer.animate winHeight).
Local Abbreviation tickTarget := (Choreographer.tickTarget winHeight).

(** Below the threshold with the flag clear, the tick assigns the target. *)
Lemma animate_sticky_assign (h : Host) (s : State) :
  scrollY h < STICKY_THRESHOLD -> wasInAnimationPhase s = false ->
  current (animate h s) = tickTarget h.
Proof.
  intros Hy Hf. unfold Choreographer.animate, Choreographer.tickTarget.
  rewrite Hf. qtest. reflexivity.
Qed.

(** Below the threshold with the flag set, and from the threshold on, the
    tick blends every field toward the target. *)
Lemma animate_blend (h : Host) (s : State) :
  blends h s = true ->
  current (animate h s) = blendToward (current s) (tickTarget h) (blendFactors h).
Proof.
  unfold blends, Choreographer.animate, Choreographer.tickTarget, blendFactors.
  destruct (Qlt_bool_spec (scrollY h) STICKY_THRESHOLD) as [Hy|Hy];
    cbn [negb orb]; intros Hb.
  - rewrite Hb. reflexivity.
  - reflexivity.
Qed.

Lemma blendToward_field (f : Field.t) (c g : Pose.t) (fs : Q * Q) :
  Field.of_pose f (blendToward c g fs)
  = lerp (Field.of_pose f c) (Field.of_pose f g) (factorOf fs f).
Proof. destruct f; reflexivity. Qed.

(** A blend with a factor other than 1 reaches its end only from it. *)
Lemma lerp_reaches (a b k : Q) : ~ k == 1 -> lerp a b k == b -> a == b.
Proof.
  unfold lerp. intros Hk H.
  assert (E : (a - b) * (1 - k) == 0) by (ring_simplify; ring_simplify in H; lra).
  apply Qmult_integral in E. destruct E as [E|E]; lra.
Qed.

(** The signed distance to the end shrinks by the factor [1 - k]. *)
Lemma lerp_distance (a b k : Q) : lerp a b k - b == (1 - k) * (a - b).
Proof. unfold lerp. ring. Qed.

Lemma blendFactors_cases (h : Host) :
  blendFactors h = (1#10, 8#100) \/ blendFactors h = (6#100, 5#100).
Proof. unfold blendFactors. qtest; auto. Qed.

Lemma settled_iff (c : Pose.t) :
  settled c = true
  <-> Qabs (Pose.x c - 30) < 5#100
      /\ Qabs (Pose.rotX c) < 1#10
      /\ Qabs (Pose.rotY c) < 1#10.
Proof.
  unfold settled. rewrite !andb_true_iff, !Qlt_bool_iff. tauto.
Qed.

(** From the threshold on, the tick sets the flag. *)
Lemma animate_flag_set (h : Host) (s : State) :
  STICKY_THRESHOLD <= scrollY h ->
  wasInAnimationPhase (animate h s) = true.
Proof.
  intros Hy. unfold Choreographer.animate. qtest. reflexivity.
Qed.

(** Below the threshold, the flag after the tick is the flag before it,
    unless the pose the tick leaves passes the [settled] test. *)
Lemma animate_flag_sticky (h : Host) (s : State) :
  scrollY h < STICKY_THRESHOLD ->
  wasInAnimationPhase (animate h s)
  = wasInAnimationPhase s && negb (settled (current (animate h s))).
Proof.
  intros Hy. unfold Choreographer.animate. qtest.
  destruct (wasInAnimationPhase s); cbn [andb current wasInAnimationPhase].
  - now destruct (settled _).
  - reflexivity.
Qed.

End Tick.

(** ** Properties of the choreographer *)

Section ChoreographerProperties.

Import Choreographer.

Local Abbreviation wp wh i := (nth i (waypoints wh) dummy).

(** C1, as the code has it.  A tick that runs a blending block (any tick
    from the threshold on, and a tick below the threshold while the
    was-animating flag is set) assigns every field through [lerp] toward the
    tick's target, with factor 0.1 for x, y, scale and 0.08 for rotX, rotY
    below the threshold, and 0.06 and 0.05 from the threshold on; the
    rotation factor is the smaller one.  After such a tick a field equals
    its target only if it did before.  A tick below the threshold with the
    flag clear assigns the target itself. *)
Theorem blend_does_not_snap (winHeight : Q) (h : Host) (s : State) :
  0 < winHeight ->
  (blends h s = true ->
     current (animate winHeight h s)
     = blendToward (current s) (tickTarget winHeight h) (blendFactors h)
     /\ (6#100 <= fst (blendFactors h) /\ fst (blendFactors h) <= 1#10)
     /\ (5#100 <= snd (blendFactors h) /\ snd (blendFactors h) <= 8#100)
     /\ snd (blendFactors h) < fst (blendFactors h)
     /\ forall f : Field.t,
          Field.of_pose f (current (animate winHeight h s))
          == Field.of_pose f (tickTarget winHeight h) ->
          Field.of_pose f (current s)
          == Field.of_pose f (tickTarget winHeight h))
  /\ (blends h s = false ->
        current (animate winHeight h s) = tickTarget winHeight h).
Proof.
  intros _. split.
  - intros Hb. rewrite (animate_blend winHeight h s Hb).
    split; [reflexivity|].
    destruct (blendFactors_cases h) as [E|E]; rewrite E; cbn [fst snd];
      (repeat split; try lra);
      intros f; rewrite blendToward_field; apply lerp_reaches;
      destruct f; cbn; lra.
  - unfold blends. intros Hb. apply orb_false_elim in Hb as [Hy Hf].
    apply negb_false_iff, Qlt_bool_iff in Hy.
    now apply animate_sticky_assign.
Qed.

(** C2.  For a scroll offset below the 150 px threshold the target of the
    tick is x = 30, y = 56 - offset / viewport height * 100, rotX = 0,
    rotY = 0, scale = 1, and it is the pose the tick assigns (flag clear) or
    blends toward (flag set). *)
Theorem sticky_target (winHeight : Q) (h : Host) (s : State) :
  0 < winHeight ->
  scrollY h < STICKY_THRESHOLD ->
  tickTarget winHeight h
  = Pose.mk 30 (56 - scrollY h / winHeight * 100) 0 0 1
  /\ current (animate winHeight h s)
     = if wasInAnimationPhase s
       then blendToward (current s) (tickTarget winHeight h) (1#10, 8#100)
       else tickTarget winHeight h.
Proof.
  intros _ Hy. split.
  - unfold tickTarget. qtest. reflexivity.
  - destruct (wasInAnimationPhase s) eqn:Hf.
    + rewrite animate_blend by (unfold blends; rewrite Hf; apply orb_true_r).
      unfold blendFactors. qtest. reflexivity.
    + now apply animate_sticky_assign.
Qed.

(** C3.  At a progress equal to the [scrollStart] of a waypoint of the
    sequence, the lookup yields the five field values of that waypoint. *)
Theorem boundary_exactness (winHeight : Q) (w : Waypoint.t) :
  0 < winHeight ->
  In w (waypoints winHeight) ->
  Pose.eq (getTargetFromScroll winHeight (Waypoint.scrollStart w))
          (Waypoint.pose w).
Proof.
  intros _ Hin.
  apply (In_nth _ _ dummy) in Hin. destruct Hin as (i & Hi & <-).
  cbn [length waypoints] in Hi.
  apply getTarget_at_start; [lia | reflexivity].
Qed.

(** C4.  At every progress at or past the last waypoint's [scrollStart]
    (so in particular up to and including 1) the lookup returns the last
    waypoint's five field values, 50, 92, 360, 720 and 0.3. *)
Theorem last_waypoint_held (winHeight p : Q) :
  Waypoint.scrollStart (lastWaypoint winHeight) <= p ->
  getTargetFromScroll winHeight p = Waypoint.pose (lastWaypoint winHeight)
  /\ Waypoint.pose (lastWaypoint winHeight) = Pose.mk 50 92 360 720 (3#10).
Proof.
  intros Hp. split; [now apply getTarget_from_last | reflexivity].
Qed.

(** C5.  Between two consecutive waypoints [i] and [i + 1], for each field,
    the looked-up target is monotone in the progress and stays between the
    two waypoints' values: non-decreasing when the field does not decrease
    from waypoint [i] to waypoint [i + 1], non-increasing when it does not
    increase. *)
Theorem eased_interpolation_monotone
    (winHeight : Q) (i : nat) (f : Field.t) (p q : Q) :
  0 < winHeight ->
  (i < 6)%nat ->
  Waypoint.scrollStart (wp winHeight i) <= p ->
  p <= q ->
  q <= Waypoint.scrollStart (wp winHeight (S i)) ->
  let a := Field.of_waypoint f (wp winHeight i) in
  let b := Field.of_waypoint f (wp winHeight (S i)) in
  let vp := Field.of_pose f (getTargetFromScroll winHeight p) in
  let vq := Field.of_pose f (getTargetFromScroll winHeight q) in
  (a <= b -> a <= vp /\ vp <= vq /\ vq <= b)
  /\ (b <= a -> b <= vq /\ vq <= vp /\ vp <= a).
Proof.
  intros _ Hi Hlo Hpq Hhi a b vp vq.
  pose proof (start_increasing winHeight i Hi) as Hinc.
  pose proof (getTarget_between winHeight i p f Hi Hlo ltac:(lra)) as Ep.
  pose proof (getTarget_between winHeight i q f Hi ltac:(lra) Hhi) as Eq.
  fold a b vp in Ep. fold a b vq in Eq.
  destruct (fraction_range winHeight i p Hi Hlo ltac:(lra)) as [P0 P1].
  destruct (fraction_range winHeight i q Hi ltac:(lra) Hhi) as [Q0 Q1].
  assert (Hmono :
    (p - Waypoint.scrollStart (wp winHeight i))
      / (Waypoint.scrollStart (wp winHeight (S i))
         - Waypoint.scrollStart (wp winHeight i))
    <= (q - Waypoint.scrollStart (wp winHeight i))
      / (Waypoint.scrollStart (wp winHeight (S i))
         - Waypoint.scrollStart (wp winHeight i)))
    by (apply Qdiv_le_mono; lra).
  pose proof (ease_monotone _ _ P0 Hmono Q1) as Hease.
  destruct (ease_range _ P0 P1) as [Tp0 Tp1].
  destruct (ease_range _ Q0 Q1) as [Tq0 Tq1].
  revert Ep Eq Hease Tp0 Tp1 Tq0 Tq1.
  generalize (ease ((p - Waypoint.scrollStart (wp winHeight i))
      / (Waypoint.scrollStart (wp winHeight (S i))
         - Waypoint.scrollStart (wp winHeight i)))).
  generalize (ease ((q - Waypoint.scrollStart (wp winHeight i))
      / (Waypoint.scrollStart (wp winHeight (S i))
         - Waypoint.scrollStart (wp winHeight i)))).
  intros tq tp Ep Eq Hease Tp0 Tp1 Tq0 Tq1.
  split; intros Hab; rewrite Ep, Eq; repeat split; nra.
Qed.

(** C8.  A tick at or above the threshold sets the was-animating flag.  A
    set flag is cleared by a tick exactly when that tick is below the
    threshold and leaves the pose with x within 0.05 of 30 and with rotX
    and rotY within 0.1 of 0.  A clear flag stays clear on every tick below
    the threshold. *)
Theorem flag_transitions (winHeight : Q) (h : Host) (s : State) :
  (STICKY_THRESHOLD <= scrollY h ->
     wasInAnimationPhase (animate winHeight h s) = true)
  /\ (wasInAnimationPhase s = true ->
        (wasInAnimationPhase (animate winHeight h s) = false
         <-> scrollY h < STICKY_THRESHOLD
             /\ Qabs (Pose.x (current (animate winHeight h s)) - 30) < 5#100
             /\ Qabs (Pose.rotX (current (animate winHeight h s))) < 1#10
             /\ Qabs (Pose.rotY (current (animate winHeight h s))) < 1#10))
  /\ (wasInAnimationPhase s = false ->
        scrollY h < STICKY_THRESHOLD ->
        wasInAnimationPhase (animate winHeight h s) = false).
Proof.
  split; [apply animate_flag_set|split].
  - intros Hf. split.
    + intros Hclear.
      destruct (Qlt_le_dec (scrollY h) STICKY_THRESHOLD) as [Hy|Hy].
      * split; [assumption|]. apply settled_iff.
        rewrite (animate_flag_sticky winHeight h s Hy), Hf in Hclear.
        cbn [andb] in Hclear. now apply negb_false_iff in Hclear.
      * rewrite (animate_flag_set winHeight h s Hy) in Hclear. discriminate.
    + intros (Hy & Hset). apply settled_iff in Hset.
      rewrite (animate_flag_sticky winHeight h s Hy), Hf, Hset. reflexivity.
  - intros Hf Hy.
    rewrite (animate_flag_sticky winHeight h s Hy), Hf. reflexivity.
Qed.

End ChoreographerProperties.

(** ** Repeated ticks toward a fixed target

    The multipliers and powers of the lemmas of this section are those of
    the exact arithmetic of the model. *)

Section Convergence.

Import Choreographer.

Variable winHeight : Q.

Local Abbreviation animate := (Choreographer.animate winHeight).
Local Abbreviation tickTarget := (Choreographer.tickTarget winHeight).
Local Abbreviation run := (Choreographer.run winHeight).

Lemma Qpower_succ (q : Q) (n : nat) :
  q ^ Z.of_nat (S n) == q * q ^ Z.of_nat n.
Proof.
  rewrite Nat2Z.inj_succ, <- Z.add_1_l.
  rewrite Qpower_plus' by lia. reflexivity.
Qed.

Lemma Qpower_unit_range (q : Q) (n : nat) :
  0 <= q -> q <= 1 -> 0 <= q ^ Z.of_nat n /\ q ^ Z.of_nat n <= 1.
Proof.
  intros H0 H1. induction n as [|n [IH0 IH1]].
  - cbn. split; lra.
  - rewrite Qpower_succ. split; nra.
Qed.

Lemma Qpower_antitone (q : Q) (m n : nat) :
  0 <= q -> q <= 1 -> (m <= n)%nat -> q ^ Z.of_nat n <= q ^ Z.of_nat m.
Proof.
  intros H0 H1 Hmn. induction Hmn as [|n Hmn IH].
  - lra.
  - rewrite Qpower_succ.
    destruct (Qpower_unit_range q n H0 H1) as [P0 P1]. nra.
Qed.

Lemma run_cons (h : Host) (hs : list Host) (s : State) :
  run (h :: hs) s = run hs (animate h s).
Proof. reflexivity. Qed.

(** One tick toward [g]: the signed distance of a field to its target is
    multiplied by a number between 0 and 0.95. *)
Lemma animate_contracts (g : Pose.t) (h : Host) (s : State) (f : Field.t) :
  Pose.eq (tickTarget h) g ->
  exists c : Q,
    0 <= c /\ c <= 95#100
    /\ Field.of_pose f (current (animate h s)) - Field.of_pose f g
       == c * (Field.of_pose f (current s) - Field.of_pose f g).
Proof.
  intros Hg. apply (pose_eq_field f) in Hg.
  destruct (blends h s) eqn:Hb.
  - exists (1 - factorOf (blendFactors h) f).
    rewrite (animate_blend winHeight h s Hb), blendToward_field.
    rewrite <- Hg.
    split; [|split; [|apply lerp_distance]];
      destruct (blendFactors_cases h) as [E|E]; rewrite E;
      destruct f; cbn; lra.
  - exists 0. unfold blends in Hb. apply orb_false_elim in Hb as [Hy Hf].
    apply negb_false_iff, Qlt_bool_iff in Hy.
    rewrite (animate_sticky_assign winHeight h s Hy Hf).
    split; [lra|split; [lra|]]. rewrite Hg. ring.
Qed.

(** From the threshold on, the multiplier is one minus the blend factor. *)
Lemma animate_distance (g : Pose.t) (h : Host) (s : State) (f : Field.t) :
  STICKY_THRESHOLD <= scrollY h ->
  Pose.eq (tickTarget h) g ->
  Field.of_pose f (current (animate h s)) - Field.of_pose f g
  == (1 - factorOf (6#100, 5#100) f)
     * (Field.of_pose f (current s) - Field.of_pose f g).
Proof.
  intros Hy Hg. apply (pose_eq_field f) in Hg.
  assert (Hb : blends h s = true).
  { unfold blends. apply orb_true_iff. left.
    apply negb_true_iff, Qlt_bool_false_iff, Hy. }
  rewrite (animate_blend winHeight h s Hb), blendToward_field, <- Hg.
  unfold blendFactors. qtest. apply lerp_distance.
Qed.

Lemma run_contracts (g : Pose.t) (hs : list Host) (s : State) (f : Field.t) :
  Forall (fun h => Pose.eq (tickTarget h) g) hs ->
  exists c : Q,
    0 <= c /\ c <= (95#100) ^ Z.of_nat (length hs)
    /\ Field.of_pose f (current (run hs s)) - Field.of_pose f g
       == c * (Field.of_pose f (current s) - Field.of_pose f g).
Proof.
  intros Hall. revert s.
  induction Hall as [|h hs Hh Hall IH]; intros s.
  - exists 1. cbn. split; [lra|split; [lra|ring]].
  - rewrite run_cons.
    destruct (IH (animate h s)) as (c & C0 & C1 & E).
    destruct (animate_contracts g h s f Hh) as (c1 & D0 & D1 & E1).
    exists (c * c1). cbn [length]. rewrite Qpower_succ.
    split; [nra|split; [nra|]].
    rewrite E, E1. ring.
Qed.

(** In the animation regime the distance after [n] ticks is the initial
    one times the [n]-th power of one minus the blend factor. *)
Lemma run_distance (g : Pose.t) (hs : list Host) (s : State) (f : Field.t) :
  Forall (fun h => STICKY_THRESHOLD <= scrollY h
                   /\ Pose.eq (tickTarget h) g) hs ->
  Field.of_pose f (current (run hs s)) - Field.of_pose f g
  == (1 - factorOf (6#100, 5#100) f) ^ Z.of_nat (length hs)
     * (Field.of_pose f (current s) - Field.of_pose f g).
Proof.
  intros Hall. revert s.
  induction Hall as [|h hs [Hy Hg] Hall IH]; intros s.
  - cbn. ring.
  - rewrite run_cons, IH, (animate_distance g h s f Hy Hg).
    cbn [length]. rewrite Qpower_succ. ring.
Qed.

End Convergence.

Section ConvergenceProperties.

Import Choreographer.

(** C6, as the code has it.  With the target held at [g] across the ticks
    [hs], every field approaches its target monotonically: after the ticks
    it lies between where it started and the target, on the side of the
    target it started on; and it is within 0.01 of the target after 60 or
    more ticks when it started within 0.2 of it. *)
Theorem fixed_target_convergence
    (winHeight : Q) (g : Pose.t) (hs : list Host) (s : State) (f : Field.t) :
  0 < winHeight ->
  Forall (fun h => Pose.eq (tickTarget winHeight h) g) hs ->
  let d0 := Field.of_pose f (current s) - Field.of_pose f g in
  let d := Field.of_pose f (current (run winHeight hs s))
           - Field.of_pose f g in
  (0 <= d0 -> 0 <= d /\ d <= d0)
  /\ (d0 <= 0 -> d0 <= d /\ d <= 0)
  /\ ((60 <= length hs)%nat -> Qabs d0 <= 2#10 -> Qabs d <= 1#100).
Proof.
  intros _ Hall d0 d.
  destruct (run_contracts winHeight g hs s f Hall) as (c & C0 & C1 & E).
  fold d0 d in E.
  destruct (Qpower_unit_range (95#100) (length hs)) as [P0 P1]; try lra.
  assert (Habs : Qabs d == c * Qabs d0).
  { rewrite E, Qabs_Qmult, (Qabs_pos c C0). reflexivity. }
  pose proof (Qabs_nonneg d0) as A0.
  split; [intros H; rewrite E; split; nra|].
  split; [intros H; rewrite E; split; nra|].
  intros Hlen Hd0.
  pose proof (Qpower_antitone (95#100) 60 (length hs)
                ltac:(lra) ltac:(lra) Hlen) as Hpow.
  assert (H60 : (95#100) ^ Z.of_nat 60 * (2#10) <= 1#100)
    by (vm_compute; discriminate).
  rewrite Habs.
  set (P := (95#100) ^ Z.of_nat (length hs)) in *.
  set (P60 := (95#100) ^ Z.of_nat 60) in *.
  assert (0 <= P60) by (apply Qpower_unit_range; lra).
  nra.
Qed.

End ConvergenceProperties.

(** ** The guards of the tick *)

Section Guards.

Import Choreographer.

Variable winHeight : Q.

Lemma scrollProgress_guard (h : Host) :
  scrollHeight h - winHeight - STICKY_THRESHOLD <= 0 ->
  scrollProgress winHeight h = 0.
Proof.
  intros H. unfold scrollProgress. qtest. reflexivity.
Qed.

Lemma clampedProgress_range (h : Host) :
  0 <= clampedProgress winHeight h /\ clampedProgress winHeight h <= 1.
Proof.
  unfold clampedProgress. split.
  - apply Q.le_max_l.
  - apply Q.max_lub; [lra | apply Q.le_min_l].
Qed.

(** The recorded lookup computes what the lookup computes, and its one
    division, when it is reached, has a positive divisor. *)
Lemma traced_getTarget (p : Q) :
  fst (Traced.getTargetFromScroll winHeight p)
  = getTargetFromScroll winHeight p
  /\ (0 <= p -> p <= 1 ->
      Forall Traced.in_order (snd (Traced.getTargetFromScroll winHeight p))).
Proof.
  unfold Traced.getTargetFromScroll, getTargetFromScroll.
  unfold Traced.bind, Traced.lookup, Traced.ret, Traced.divide.
  destruct (scan _ _ _) as [from to].
  destruct (Qle_bool_spec (Waypoint.scrollStart (lastWaypoint winHeight)) p).
  - cbn. split; [reflexivity|]. intros P0 P1. repeat constructor; assumption.
  - destruct (Qle_bool_spec
                (Waypoint.scrollStart to - Waypoint.scrollStart from) 0).
    + cbn. split; [reflexivity|]. intros P0 P1.
      repeat constructor; assumption.
    + cbn [fst snd app]. split; [reflexivity|]. intros P0 P1.
      repeat constructor; try assumption. cbn. lra.
Qed.

Lemma fst_bind {A B : Type} (m : Traced.M A) (k : A -> Traced.M B) :
  fst (Traced.bind m k) = fst (k (fst m)).
Proof. unfold Traced.bind. destruct m as [a ops]; cbn. now destruct (k a). Qed.

Lemma snd_bind {A B : Type} (m : Traced.M A) (k : A -> Traced.M B) :
  snd (Traced.bind m k) = snd m ++ snd (k (fst m)).
Proof. unfold Traced.bind. destruct m as [a ops]; cbn. now destruct (k a). Qed.

Lemma traced_targetY (h : Host) :
  Traced.targetY winHeight h
  = (targetY winHeight h, [Traced.Divide (scrollY h) winHeight]).
Proof. reflexivity. Qed.

Lemma traced_scrollProgress (h : Host) :
  fst (Traced.scrollProgress winHeight h) = scrollProgress winHeight h
  /\ Forall Traced.in_order (snd (Traced.scrollProgress winHeight h)).
Proof.
  unfold Traced.scrollProgress, scrollProgress.
  destruct (Qlt_bool_spec 0 (scrollHeight h - winHeight - STICKY_THRESHOLD)).
  - split; [reflexivity|]. repeat constructor. cbn. lra.
  - split; [reflexivity|constructor].
Qed.

Lemma traced_animate (h : Host) (s : State) :
  ~ winHeight == 0 ->
  fst (Traced.animate winHeight h s) = animate winHeight h s
  /\ Forall Traced.in_order (snd (Traced.animate winHeight h s)).
Proof.
  intros Hw.
  unfold Traced.animate, animate.
  destruct (Qlt_bool_spec (scrollY h) STICKY_THRESHOLD) as [Hy|Hy].
  - rewrite fst_bind, snd_bind, traced_targetY. cbn [fst snd].
    destruct (wasInAnimationPhase s); cbn [fst snd app Traced.ret];
      (split; [reflexivity | repeat constructor; exact Hw]).
  - destruct (traced_scrollProgress h) as [P1 P2].
    destruct (traced_getTarget (clampedProgress winHeight h)) as [T1 T2].
    destruct (clampedProgress_range h) as [C0 C1].
    specialize (T2 C0 C1). unfold clampedProgress in T1, T2.
    rewrite !fst_bind, !snd_bind, P1, T1. cbn [fst snd Traced.ret].
    split; [reflexivity|].
    rewrite app_nil_r. apply Forall_app. split; assumption.
Qed.

End Guards.

Section GuardProperties.

Import Choreographer.

(** C7.  When the scrollable range, total scrollable height minus viewport
    height minus the 150 px threshold, is zero or negative, the progress is
    0 and no division takes place; the argument of the waypoint lookup is
    the progress clamped to [[0, 1]]; and in the tick as recorded by
    [Traced.animate], which computes what [animate] computes, every
    division has a non-zero divisor and every lookup an argument in
    [[0, 1]]. *)
Theorem tick_guards (winHeight : Q) (h : Host) (s : State) :
  0 < winHeight ->
  (scrollHeight h - winHeight - STICKY_THRESHOLD <= 0 ->
     scrollProgress winHeight h = 0
     /\ Traced.scrollProgress winHeight h = (0, []))
  /\ clampedProgress winHeight h = Qmax 0 (Qmin 1 (scrollProgress winHeight h))
  /\ (0 <= clampedProgress winHeight h /\ clampedProgress winHeight h <= 1)
  /\ fst (Traced.animate winHeight h s) = animate winHeight h s
  /\ Forall Traced.in_order (snd (Traced.animate winHeight h s)).
Proof.
  intros Hw. split; [|split; [reflexivity|split]].
  - intros H. split; [now apply scrollProgress_guard|].
    unfold Traced.scrollProgress. qtest. reflexivity.
  - apply clampedProgress_range.
  - apply traced_animate. lra.
Qed.

(** With a viewport height of 0 the tick below the threshold does divide
    by zero: the division by [winHeight] has no guard. *)
Example zero_height_divides :
  snd (Traced.animate 0 (mkHost 100 5000) init) = [Traced.Divide 100 0].
Proof. reflexivity. Qed.

End GuardProperties.

(** ** The carousel *)

Section Carousel.

Import CardFan.

Local Open Scope Z_scope.

Lemma next_range (a : Z) : 1 <= a <= 6 -> 1 <= next a <= 6.
Proof. unfold next. intros H. destruct (Z.geb_spec a 6); lia. Qed.

Lemma back_range (a : Z) : 1 <= a <= 6 -> 1 <= back a <= 6.
Proof. unfold back. intros H. destruct (Z.leb_spec a 1); lia. Qed.

Lemma run_cons_card (e : Event) (es : list Event) (s : State) :
  run (e :: es) s = run es (step e s).
Proof. reflexivity. Qed.

Lemma startAutoSwitch_consistent (s : State) :
  consistent s -> consistent (startAutoSwitch s).
Proof.
  unfold consistent, startAutoSwitch. intros [Ha Ht].
  destruct (intervalRef s) eqn:E; cbn; rewrite ?E; [tauto|].
  rewrite Ht. tauto.
Qed.

Lemma stopAutoSwitch_paused (s : State) :
  consistent s -> paused (stopAutoSwitch s).
Proof.
  unfold consistent, paused, stopAutoSwitch. intros [Ha Ht].
  destruct (intervalRef s) eqn:E; cbn; rewrite ?E; [|tauto].
  rewrite Ht. cbn. rewrite Pos.eqb_refl. tauto.
Qed.

Lemma stopAutoSwitch_consistent (s : State) :
  consistent s -> consistent (stopAutoSwitch s).
Proof.
  intros H. pose proof (stopAutoSwitch_paused s H) as [Hr Ht].
  split.
  - unfold stopAutoSwitch. destruct H as [Ha _].
    now destruct (intervalRef s).
  - now rewrite Hr, Ht.
Qed.

Lemma fire_consistent (id : positive) (s : State) :
  consistent s -> consistent (fire id s).
Proof.
  unfold fire. intros [Ha Ht].
  destruct (existsb _ _); [|now split].
  split; [apply next_range, Ha | exact Ht].
Qed.

Lemma handleWheel_consistent (dy dx : Q) (s : State) :
  consistent s -> consistent (handleWheel dy dx s).
Proof.
  unfold handleWheel. intros [Ha Ht].
  destruct (isHovering s); cbn [negb]; [|now split].
  repeat match goal with
         | |- context [if ?b then _ else _] => destruct b
         end;
    (split; [cbn; auto using next_range, back_range | exact Ht]).
Qed.

Lemma step_consistent (e : Event) (s : State) :
  consistent s -> consistent (step e s).
Proof.
  intros H. destruct e; cbn [step].
  - now apply fire_consistent.
  - apply stopAutoSwitch_consistent. exact H.
  - apply startAutoSwitch_consistent. exact H.
  - now apply handleWheel_consistent.
Qed.

Lemma mounted_consistent : consistent mounted.
Proof. split; [cbn; lia | reflexivity]. Qed.

Lemma run_consistent (es : list Event) (s : State) :
  consistent s -> consistent (run es s).
Proof.
  revert s. induction es as [|e es IH]; intros s H; [exact H|].
  rewrite run_cons_card. apply IH, step_consistent, H.
Qed.

(** While the interval is cancelled, every event other than a hover-leave
    keeps it cancelled. *)
Lemma step_paused (e : Event) (s : State) :
  paused s -> is_leave e = false -> paused (step e s).
Proof.
  intros [Hr Ht] He. destruct e; cbn [step]; try discriminate.
  - unfold fire. rewrite Ht. cbn. now split.
  - unfold handleMouseEnter, stopAutoSwitch. cbn. rewrite Hr. now split.
  - unfold handleWheel. destruct (isHovering s); cbn [negb]; [|now split].
    repeat match goal with
           | |- context [if ?b then _ else _] => destruct b
           end; now split.
Qed.

Lemma paused_quiet (es : list Event) (s : State) :
  paused s -> forallb (fun e => negb (is_leave e)) es = true ->
  autoAdvances es s = 0%nat /\ paused (run es s).
Proof.
  revert s. induction es as [|e es IH]; intros s Hp Hq; [now split|].
  cbn [forallb] in Hq. apply andb_true_iff in Hq as [He Hq].
  apply negb_true_iff in He.
  rewrite run_cons_card. cbn [autoAdvances].
  destruct (IH (step e s) (step_paused e s Hp He) Hq) as [IH1 IH2].
  split; [|exact IH2]. rewrite IH1.
  destruct Hp as [_ Ht]. rewrite Ht. now destruct e.
Qed.

(** Without hover events and with the pointer outside, the active card
    moves only by the interval callback, one card per firing. *)
Lemma run_no_hover (es : list Event) (s : State) :
  isHovering s = false ->
  forallb (fun e => negb (is_hover e)) es = true ->
  activeCard (run es s) = Nat.iter (autoAdvances es s) next (activeCard s).
Proof.
  revert s. induction es as [|e es IH]; intros s Hh Hq; [reflexivity|].
  cbn [forallb] in Hq. apply andb_true_iff in Hq as [He Hq].
  apply negb_true_iff in He.
  rewrite run_cons_card. cbn [autoAdvances].
  destruct e; try discriminate; cbn [step].
  - unfold fire. destruct (existsb _ _).
    + rewrite IH by assumption. cbn [Nat.add Nat.iter activeCard setActiveCard].
      now rewrite Nat.iter_swap.
    + now rewrite IH.
  - assert (E : handleWheel deltaY deltaX s = s)
      by (unfold handleWheel; now rewrite Hh).
    rewrite E. now rewrite IH.
Qed.

End Carousel.

Section CarouselProperties.

Import CardFan.

Local Open Scope Z_scope.

(** C9.  From the mounted carousel (active card 1), along any events with no
    hover among them during which the interval callback runs exactly 4
    times, the active card becomes 5.  After a hover-enter in any reachable
    state the interval is cancelled: along any further events other than a
    hover-leave the callback never runs and no timer is live; the
    hover-leave then starts a timer whose firing advances the card. *)
Theorem auto_advance_and_hover :
  (forall es : list Event,
     forallb (fun e => negb (is_hover e)) es = true ->
     autoAdvances es mounted = 4%nat ->
     activeCard (run es mounted) = 5)
  /\ (forall pre es : list Event,
        forallb (fun e => negb (is_leave e)) es = true ->
        let s := run es (handleMouseEnter (run pre mounted)) in
        autoAdvances es (handleMouseEnter (run pre mounted)) = 0%nat
        /\ intervalRef s = None
        /\ timers s = []
        /\ (forall id : positive, fire id s = s)
        /\ timers (handleMouseLeave s) = [nextTimer s]
        /\ activeCard (fire (nextTimer s) (handleMouseLeave s))
           = next (activeCard s)).
Proof.
  split.
  - intros es Hq H4.
    rewrite run_no_hover by (reflexivity || assumption).
    rewrite H4. reflexivity.
  - intros pre es Hq s.
    assert (Hp : paused (handleMouseEnter (run pre mounted))).
    { apply stopAutoSwitch_paused.
      apply (run_consistent pre mounted mounted_consistent). }
    destruct (paused_quiet es _ Hp Hq) as [H0 [Hr Ht]]. fold s in Hr, Ht.
    split; [exact H0|]. split; [exact Hr|]. split; [exact Ht|].
    split; [intros id; unfold fire; now rewrite Ht|].
    unfold handleMouseLeave, startAutoSwitch, fire. cbn.
    rewrite Hr, Ht. cbn. rewrite Pos.eqb_refl. split; reflexivity.
Qed.

(** C10.  The active card of the carousel is always one of 1 to 6: in
    every state reached from the mounted one, and across each of the two
    updates, which wrap from 6 to 1 going forward and from 1 to 6 going
    back and step by one otherwise. *)
Theorem active_card_in_range :
  (forall es : list Event, 1 <= activeCard (run es mounted) <= 6)
  /\ (forall a : Z, 1 <= a <= 6 -> 1 <= next a <= 6 /\ 1 <= back a <= 6)
  /\ next 6 = 1
  /\ back 1 = 6
  /\ (forall a : Z, 1 <= a < 6 -> next a = a + 1)
  /\ (forall a : Z, 1 < a <= 6 -> back a = a - 1).
Proof.
  split.
  { intros es. apply (run_consistent es mounted mounted_consistent). }
  split.
  { intros a Ha. split; [now apply next_range | now apply back_range]. }
  split; [reflexivity|]. split; [reflexivity|].
  split; intros a Ha.
  - unfold next. destruct (Z.geb_spec a 6); lia.
  - unfold back. destruct (Z.leb_spec a 1); lia.
Qed.

End CarouselProperties.

(** ** Concrete runs *)

Section Runs.

Import Choreographer.

(** The example of the specification: halfway between the first two
    waypoints the eased fraction is 0.5. *)
Example target_halfway :
  Pose.x (getTargetFromScroll 1000 (4#100)) == 575#10
  /\ Pose.rotX (getTargetFromScroll 1000 (4#100)) == 225#10
  /\ Pose.rotY (getTargetFromScroll 1000 (4#100)) == 45.
Proof. vm_compute. repeat split. Qed.

(** C1 fails as stated.  The first tick at scroll offset 100 in a viewport
    1000 px high is a tick below the threshold with the flag clear: it
    assigns the target, so y, 56 before the tick, equals its target 46
    after it without having been equal before. *)
Lemma sticky_tick_snaps :
  current (animate 1000 (mkHost 100 5000) init)
  = tickTarget 1000 (mkHost 100 5000)
  /\ Pose.y (current (animate 1000 (mkHost 100 5000) init))
     == Pose.y (tickTarget 1000 (mkHost 100 5000))
  /\ ~ Pose.y (current init) == Pose.y (tickTarget 1000 (mkHost 100 5000)).
Proof.
  split; [reflexivity|]. split; [reflexivity|].
  vm_compute. discriminate.
Qed.

(** C6 fails as stated.  With the page 5000 px high held scrolled to its
    end in a viewport 1000 px high, the target is the last waypoint on
    every tick; starting from the initial pose, rotY is farther than 0.01
    from its target 720 after each of the first 60 ticks. *)
Lemma sixty_ticks_not_enough :
  Forall
    (fun n : nat =>
       1#100 < Qabs (Pose.rotY
                       (current (run 1000 (repeat (mkHost 4000 5000) n) init))
                     - Pose.rotY (tickTarget 1000 (mkHost 4000 5000))))
    (seq 0 61).
Proof.
  apply Forall_forall. intros n Hn. apply in_seq in Hn.
  assert (Hall :
    Forall (fun h => STICKY_THRESHOLD <= scrollY h
                     /\ Pose.eq (tickTarget 1000 h)
                                (tickTarget 1000 (mkHost 4000 5000)))
           (repeat (mkHost 4000 5000) n)).
  { apply Forall_forall. intros h Hh. apply repeat_spec in Hh. subst h.
    split; [vm_compute; discriminate | repeat split; reflexivity]. }
  pose proof (run_distance 1000 _ _ init Field.rotY Hall) as E.
  cbn [Field.of_pose] in E. rewrite E, repeat_length, Qabs_Qmult.
  destruct (Qpower_unit_range (95#100) n) as [P0 P1]; try lra.
  pose proof (Qpower_antitone (95#100) n 60 ltac:(lra) ltac:(lra) ltac:(lia))
    as Hpow.
  assert (H60 : 1#100 < (95#100) ^ Z.of_nat 60 * 720) by reflexivity.
  assert (Ek : 1 - factorOf (6#100, 5#100) Field.rotY == 95#100)
    by reflexivity.
  assert (Ed : Qabs (Pose.rotY (current init)
                     - Pose.rotY (tickTarget 1000 (mkHost 4000 5000))) == 720)
    by reflexivity.
  rewrite Ed, Ek, (Qabs_pos _ P0).
  set (P := (95#100) ^ Z.of_nat n) in *.
  set (P60 := (95#100) ^ Z.of_nat 60) in *.
  lra.
Qed.

(** Four firings of the mounted interval, whose id is 1, take the carousel
    from card 1 to card 5; a seventh firing wraps from card 6 to card 1. *)
Example four_firings :
  CardFan.activeCard
    (CardFan.run [CardFan.Fire 1; CardFan.Fire 1; CardFan.Fire 1;
                  CardFan.Fire 1] CardFan.mounted) = 5%Z
  /\ CardFan.activeCard
       (CardFan.run (repeat (CardFan.Fire 1) 6) CardFan.mounted) = 1%Z.
Proof. split; reflexivity. Qed.

(** While the pointer is over a card the cancelled interval does not
    advance the carousel; after the pointer leaves, the new interval, whose
    id is 2, does.  A wheel movement of more than 80 while hovering steps
    the carousel, backward from card 1 to card 6. *)
Example hover_pauses :
  CardFan.activeCard
    (CardFan.run [CardFan.MouseEnter; CardFan.Fire 1; CardFan.Fire 1]
                 CardFan.mounted) = 1%Z
  /\ CardFan.activeCard
       (CardFan.run [CardFan.MouseEnter; CardFan.Fire 1; CardFan.MouseLeave;
                     CardFan.Fire 2] CardFan.mounted) = 2%Z
  /\ CardFan.activeCard
       (CardFan.run [CardFan.MouseEnter; CardFan.Wheel (-(100)) 0]
                    CardFan.mounted) = 6%Z.
Proof. repeat split; reflexivity. Qed.

Lemma blend_does_not_snap_witness :
  current (animate 1000 (mkHost 4000 5000) init)
  = blendToward (current init) (tickTarget 1000 (mkHost 4000 5000))
      (6#100, 5#100)
  /\ (Pose.rotY (current (animate 1000 (mkHost 4000 5000) init))
      == Pose.rotY (tickTarget 1000 (mkHost 4000 5000)) ->
      Pose.rotY (current init)
      == Pose.rotY (tickTarget 1000 (mkHost 4000 5000))).
Proof.
  destruct (blend_does_not_snap 1000 (mkHost 4000 5000) init) as [H _];
    [reflexivity|].
  destruct (H eq_refl) as (E & _ & _ & _ & Hf).
  split; [exact E | exact (Hf Field.rotY)].
Defined.

Lemma sticky_target_witness :
  tickTarget 1000 (mkHost 100 5000)
  = Pose.mk 30 (56 - 100 / 1000 * 100) 0 0 1
  /\ current (animate 1000 (mkHost 100 5000) init)
     = tickTarget 1000 (mkHost 100 5000).
Proof.
  apply (sticky_target 1000 (mkHost 100 5000) init); reflexivity.
Defined.

Lemma boundary_exactness_witness :
  Pose.eq (getTargetFromScroll 1000 (8#100)) (Pose.mk 85 35 45 90 1).
Proof.
  apply (boundary_exactness 1000 (Waypoint.mk (8#100) 85 35 45 90 1)).
  - reflexivity.
  - simpl. right. left. reflexivity.
Defined.

Lemma last_waypoint_held_witness :
  getTargetFromScroll 1000 1 = Pose.mk 50 92 360 720 (3#10).
Proof.
  destruct (last_waypoint_held 1000 1) as [E1 E2].
  - vm_compute. discriminate.
  - exact E1.
Defined.

Lemma eased_interpolation_monotone_witness :
  30 <= Pose.x (getTargetFromScroll 1000 (2#100))
  /\ Pose.x (getTargetFromScroll 1000 (2#100))
     <= Pose.x (getTargetFromScroll 1000 (4#100))
  /\ Pose.x (getTargetFromScroll 1000 (4#100)) <= 85.
Proof.
  destruct (eased_interpolation_monotone 1000 0 Field.x (2#100) (4#100))
    as [H _].
  - reflexivity.
  - repeat constructor.
  - vm_compute. discriminate.
  - vm_compute. discriminate.
  - vm_compute. discriminate.
  - apply H. vm_compute. discriminate.
Defined.

Lemma fixed_target_convergence_witness :
  0 - 720
  <= Pose.rotY (current (run 1000 [mkHost 4000 5000; mkHost 4000 5000] init))
     - 720
  /\ Pose.rotY (current (run 1000 [mkHost 4000 5000; mkHost 4000 5000] init))
     - 720 <= 0.
Proof.
  destruct (fixed_target_convergence 1000
              (tickTarget 1000 (mkHost 4000 5000))
              [mkHost 4000 5000; mkHost 4000 5000] init Field.rotY)
    as (_ & H & _).
  - reflexivity.
  - repeat constructor; reflexivity.
  - apply H. vm_compute. discriminate.
Defined.

Lemma tick_guards_witness :
  scrollProgress 1000 (mkHost 200 1100) = 0
  /\ Forall Traced.in_order (snd (Traced.animate 1000 (mkHost 200 1100) init)).
Proof.
  destruct (tick_guards 1000 (mkHost 200 1100) init) as (G & _ & _ & _ & T).
  - reflexivity.
  - split; [apply G; vm_compute; discriminate | exact T].
Defined.

End Runs.

(** ** The lookup over its whole domain *)

Section LookupRange.

Import Choreographer.

Variable winHeight : Q.

Local Abbreviation wp i := (nth i (waypoints winHeight) dummy).
Local Abbreviation start i := (Waypoint.scrollStart (wp i)).
Local Abbreviation target := (getTargetFromScroll winHeight).

(** The eased fraction of the progress [p] in the interval that starts at
    waypoint [i]. *)
Local Abbreviation tau i p :=
  (ease ((p - start i) / (start (S i) - start i))).

Lemma tau_range (i : nat) (p : Q) :
  (i < 6)%nat -> start i <= p -> p <= start (S i) ->
  0 <= tau i p /\ tau i p <= 1.
Proof.
  intros Hi Hlo Hhi.
  destruct (fraction_range winHeight i p Hi Hlo Hhi) as [F0 F1].
  now apply ease_range.
Qed.

Lemma tau_monotone (i : nat) (p q : Q) :
  (i < 6)%nat -> start i <= p -> p <= q -> q <= start (S i) ->
  tau i p <= tau i q.
Proof.
  intros Hi Hlo Hpq Hhi.
  pose proof (start_increasing winHeight i Hi) as Hinc.
  destruct (fraction_range winHeight i p Hi Hlo ltac:(lra)) as [P0 P1].
  destruct (fraction_range winHeight i q Hi ltac:(lra) Hhi) as [Q0 Q1].
  apply ease_monotone; [assumption| |assumption].
  apply Qdiv_le_mono; lra.
Qed.

(** Below 0 no pair of the loop matches, [from] and [to] stay at the first
    waypoint and the [range <= 0] return gives it back. *)
Lemma getTarget_negative (p : Q) :
  p < 0 -> target p = Waypoint.pose (firstWaypoint winHeight).
Proof.
  intros Hp.
  unfold getTargetFromScroll, lastWaypoint, firstWaypoint, waypoints.
  cbn [scan last hd Waypoint.scrollStart].
  qtest; cbn [Waypoint.scrollStart] in *; try lra; qtest; reflexivity.
Qed.

(** The three ways a progress relates to the waypoints. *)
Lemma progress_cases (p : Q) :
  p < 0
  \/ 1 <= p
  \/ exists i : nat, (i < 6)%nat /\ start i <= p /\ p < start (S i).
Proof.
  destruct (Qlt_le_dec p 0) as [H0|H0]; [now left|].
  destruct (Qlt_le_dec p 1) as [H1|H1]; [|now right; left].
  right; right. now apply bracket_exists.
Qed.

Lemma target_in_envelope (p : Q) : Envelope.holds (target p).
Proof.
  destruct (progress_cases p) as [H|[H|(i & Hi & Hlo & Hhi)]].
  - rewrite getTarget_negative by assumption.
    unfold Envelope.holds; cbn. lra.
  - rewrite (getTarget_from_last winHeight p) by (cbn; assumption).
    unfold Envelope.holds; cbn. lra.
  - destruct (tau_range i p Hi Hlo ltac:(lra)) as [T0 T1].
    rewrite (getTarget_segment winHeight i p Hi Hlo Hhi).
    revert T0 T1. generalize (tau i p). intros t T0 T1.
    destruct i as [|[|[|[|[|[|i]]]]]]; try lia;
      unfold Envelope.holds; cbn; lra.
Qed.

(** The signed change of a field from the progress [p] to the progress
    [q] has the sign the waypoint values of the field have along the whole
    sequence: rotX and rotY never decrease, scale never increases. *)
Lemma target_rotation_monotone (p q : Q) :
  p <= q ->
  Pose.rotX (target p) <= Pose.rotX (target q)
  /\ Pose.rotY (target p) <= Pose.rotY (target q)
  /\ Pose.scale (target q) <= Pose.scale (target p).
Proof.
  intros Hpq.
  pose proof (target_in_envelope p) as (_ & Prx & Pry & Ps).
  pose proof (target_in_envelope q) as (_ & Qrx & Qry & Qs).
  destruct (progress_cases p) as [Hp|[Hp|(i & Hi & Plo & Phi)]].
  - clear Prx Pry Ps. rewrite (getTarget_negative p Hp). cbn. lra.
  - clear Prx Pry Ps Qrx Qry Qs.
    rewrite (getTarget_from_last winHeight p) by (cbn; assumption).
    rewrite (getTarget_from_last winHeight q) by (cbn; lra).
    cbn. lra.
  - destruct (progress_cases q) as [Hq|[Hq|(j & Hj & Qlo & Qhi)]].
    + pose proof (start_increasing winHeight i Hi) as Hinc.
      destruct i as [|[|[|[|[|[|i]]]]]]; try lia; cbn in Plo, Phi; lra.
    + clear Qrx Qry Qs.
      rewrite (getTarget_from_last winHeight q) by (cbn; assumption).
      cbn. lra.
    + destruct (Nat.eq_dec i j) as [->|Hne].
      * pose proof (tau_monotone j p q Hj Plo Hpq ltac:(lra)) as Hm.
        destruct (tau_range j p Hj Plo ltac:(lra)) as [P0 P1].
        destruct (tau_range j q Hj Qlo ltac:(lra)) as [Q0 Q1].
        rewrite (getTarget_segment winHeight j p Hj Plo Phi).
        rewrite (getTarget_segment winHeight j q Hj Qlo Qhi).
        revert Hm P0 P1 Q0 Q1.
        generalize (tau j p), (tau j q). intros tp tq Hm P0 P1 Q0 Q1.
        destruct j as [|[|[|[|[|[|j]]]]]]; try lia; cbn; lra.
      * destruct (tau_range i p Hi Plo ltac:(lra)) as [P0 P1].
        destruct (tau_range j q Hj Qlo ltac:(lra)) as [Q0 Q1].
        rewrite (getTarget_segment winHeight i p Hi Plo Phi).
        rewrite (getTarget_segment winHeight j q Hj Qlo Qhi).
        revert P0 P1 Q0 Q1.
        generalize (tau i p), (tau j q). intros tp tq P0 P1 Q0 Q1.
        clear Prx Pry Ps Qrx Qry Qs.
        destruct i as [|[|[|[|[|[|i]]]]]]; try lia;
          destruct j as [|[|[|[|[|[|j]]]]]]; try lia;
          cbn in Plo, Phi, Qlo, Qhi; try lra; cbn; lra.
Qed.

End LookupRange.

(** ** The target at the ends of the scroll range *)

Section ScrollEnds.

Import Choreographer.

Variable winHeight : Q.

Local Abbreviation tickTarget := (Choreographer.tickTarget winHeight).
Local Abbreviation clampedProgress := (Choreographer.clampedProgress winHeight).
Local Abbreviation scrollProgress := (Choreographer.scrollProgress winHeight).

Lemma clamp_zero (p : Q) : p == 0 -> Qmax 0 (Qmin 1 p) == 0.
Proof.
  intros H. rewrite (Q.min_r 1 p) by lra. apply Q.max_l. lra.
Qed.

Lemma clamp_one (p : Q) : 1 <= p -> Qmax 0 (Qmin 1 p) == 1.
Proof.
  intros H. rewrite (Q.min_l 1 p) by lra. apply Q.max_r. lra.
Qed.

(** At the threshold the progress is 0, whatever the height of the page. *)
Lemma scrollProgress_at_threshold (h : Host) :
  scrollY h == STICKY_THRESHOLD -> scrollProgress h == 0.
Proof.
  intros H. unfold Choreographer.scrollProgress.
  destruct (Qlt_bool_spec 0 (scrollHeight h - winHeight - STICKY_THRESHOLD));
    [|reflexivity].
  rewrite H. field. lra.
Qed.

(** Scrolled to the end of the page or past it, the progress is at
    least 1. *)
Lemma scrollProgress_at_end (h : Host) :
  0 < scrollHeight h - winHeight - STICKY_THRESHOLD ->
  scrollHeight h - winHeight <= scrollY h ->
  1 <= scrollProgress h.
Proof.
  intros Hm Hy. unfold Choreographer.scrollProgress. qtest.
  apply Qle_shift_div_l; [assumption|lra].
Qed.

Lemma tickTarget_animation (h : Host) :
  STICKY_THRESHOLD <= scrollY h ->
  tickTarget h = getTargetFromScroll winHeight (clampedProgress h).
Proof.
  intros Hy. unfold Choreographer.tickTarget. qtest. reflexivity.
Qed.

Lemma tickTarget_progress_zero (h : Host) :
  STICKY_THRESHOLD <= scrollY h ->
  scrollProgress h == 0 ->
  Pose.eq (tickTarget h) (Pose.mk 30 (RELEASE_Y winHeight) 0 0 1).
Proof.
  intros Hy Hp. rewrite (tickTarget_animation h Hy).
  apply (getTarget_at_start winHeight 0); [lia|].
  unfold Choreographer.clampedProgress. now apply clamp_zero.
Qed.

End ScrollEnds.

(** ** What every tick keeps *)

Section TickInvariants.

Import Choreographer.

Variable winHeight : Q.

Local Abbreviation animate := (Choreographer.animate winHeight).
Local Abbreviation tickTarget := (Choreographer.tickTarget winHeight).
Local Abbreviation run := (Choreographer.run winHeight).

(** A blend with a factor in [[0, 1]] stays between its two ends. *)
Lemma lerp_between (lo hi a b k : Q) :
  0 <= k -> k <= 1 -> lo <= a -> a <= hi -> lo <= b -> b <= hi ->
  lo <= lerp a b k /\ lerp a b k <= hi.
Proof. unfold lerp. intros. split; nra. Qed.

Lemma blendToward_envelope (c g : Pose.t) (fs : Q * Q) :
  0 <= fst fs -> fst fs <= 1 -> 0 <= snd fs -> snd fs <= 1 ->
  Envelope.holds c -> Envelope.holds g ->
  Envelope.holds (blendToward c g fs).
Proof.
  intros F0 F1 S0 S1 (Cx & Crx & Cry & Cs) (Gx & Grx & Gry & Gs).
  unfold Envelope.holds, blendToward; cbn [Pose.x Pose.rotX Pose.rotY Pose.scale].
  split; [|split; [|split]]; apply lerp_between; tauto.
Qed.

Lemma tickTarget_envelope (h : Host) : Envelope.holds (tickTarget h).
Proof.
  unfold Choreographer.tickTarget.
  destruct (Qlt_bool_spec (scrollY h) STICKY_THRESHOLD).
  - unfold Envelope.holds; cbn. lra.
  - apply target_in_envelope.
Qed.

Lemma animate_envelope (h : Host) (s : State) :
  Envelope.holds (current s) -> Envelope.holds (current (animate h s)).
Proof.
  intros Hc. destruct (blends h s) eqn:Hb.
  - rewrite (animate_blend winHeight h s Hb).
    apply blendToward_envelope;
      try assumption; try apply tickTarget_envelope;
      destruct (blendFactors_cases h) as [E|E]; rewrite E; cbn; lra.
  - unfold blends in Hb. apply orb_false_elim in Hb as [Hy Hf].
    apply negb_false_iff, Qlt_bool_iff in Hy.
    rewrite (animate_sticky_assign winHeight h s Hy Hf).
    apply tickTarget_envelope.
Qed.

Lemma run_snoc (hs : list Host) (h : Host) (s : State) :
  run (hs ++ [h]) s = animate h (run hs s).
Proof. unfold Choreographer.run. now rewrite fold_left_app. Qed.

Lemma run_envelope (hs : list Host) (s : State) :
  Envelope.holds (current s) -> Envelope.holds (current (run hs s)).
Proof.
  revert s. induction hs as [|h hs IH]; intros s Hs; [exact Hs|].
  rewrite run_cons. apply IH, animate_envelope, Hs.
Qed.

Lemma init_envelope : Envelope.holds (current init).
Proof. unfold Envelope.holds; cbn. lra. Qed.

(** Every branch of [animate] ends by copying the two rotations of
    [current] to the shared ref. *)
Lemma animate_mirrors (h : Host) (s : State) :
  modelRotationRef (animate h s)
  = (Pose.rotX (current (animate h s)), Pose.rotY (current (animate h s))).
Proof.
  unfold Choreographer.animate.
  destruct (Qlt_bool _ _); [destruct (wasInAnimationPhase s)|]; reflexivity.
Qed.

Lemma run_mirrors (hs : list Host) (s : State) :
  modelRotationRef s = (Pose.rotX (current s), Pose.rotY (current s)) ->
  modelRotationRef (run hs s)
  = (Pose.rotX (current (run hs s)), Pose.rotY (current (run hs s))).
Proof.
  revert s. induction hs as [|h hs IH]; intros s Hs; [exact Hs|].
  rewrite run_cons. apply IH, animate_mirrors.
Qed.

(** *** Ticks below the threshold *)

(** Below the threshold a clear flag stays clear: a flag set after the
    ticks was set before them. *)
Lemma sticky_flag_stays_set (hs : list Host) (s : State) :
  Forall belowThreshold hs ->
  wasInAnimationPhase (run hs s) = true -> wasInAnimationPhase s = true.
Proof.
  intros Hall. revert s.
  induction Hall as [|h hs Hh Hall IH]; intros s Hf; [exact Hf|].
  rewrite run_cons in Hf. apply IH in Hf.
  rewrite (animate_flag_sticky winHeight h s Hh) in Hf.
  now apply andb_true_iff in Hf.
Qed.

(** While the flag stays set below the threshold every tick blends, so
    x, rotX and rotY are their initial offsets from 30, 0 and 0 times a
    power of 0.9 and of 0.92, and the pose the last tick leaves does not
    pass the [settled] test. *)
Lemma sticky_run_blends (hs : list Host) (s : State) :
  Forall belowThreshold hs ->
  wasInAnimationPhase (run hs s) = true ->
  Pose.x (current (run hs s)) - 30
  == (9#10) ^ Z.of_nat (length hs) * (Pose.x (current s) - 30)
  /\ Pose.rotX (current (run hs s))
     == (92#100) ^ Z.of_nat (length hs) * Pose.rotX (current s)
  /\ Pose.rotY (current (run hs s))
     == (92#100) ^ Z.of_nat (length hs) * Pose.rotY (current s)
  /\ (hs <> [] -> settled (current (run hs s)) = false).
Proof.
  intros Hall. revert s.
  induction Hall as [|h hs Hh Hall IH]; intros s Hf.
  - cbn. repeat split; try ring. congruence.
  - rewrite run_cons in *.
    destruct (IH _ Hf) as (Ex & Erx & Ery & Hset).
    pose proof (sticky_flag_stays_set hs _ Hall Hf) as Hf1.
    rewrite (animate_flag_sticky winHeight h s Hh) in Hf1.
    apply andb_true_iff in Hf1 as [Hf0 Hns].
    apply negb_true_iff in Hns.
    assert (Hb : blends h s = true)
      by (unfold blends; rewrite Hf0; apply orb_true_r).
    assert (Ec : current (animate h s)
                 = blendToward (current s) (tickTarget h) (1#10, 8#100)).
    { rewrite (animate_blend winHeight h s Hb).
      unfold blendFactors. unfold belowThreshold in Hh. qtest. reflexivity. }
    assert (Et : Pose.x (tickTarget h) = 30
                 /\ Pose.rotX (tickTarget h) = 0
                 /\ Pose.rotY (tickTarget h) = 0).
    { unfold Choreographer.tickTarget. unfold belowThreshold in Hh. qtest.
      repeat split. }
    destruct Et as (Tx & Trx & Try).
    cbn [length]. rewrite Qpower_succ, Qpower_succ.
    rewrite Ex, Erx, Ery, Ec.
    cbn [blendToward Pose.x Pose.rotX Pose.rotY fst snd].
    rewrite Tx, Trx, Try. unfold lerp.
    split; [ring|]. split; [ring|]. split; [ring|].
    intros _. destruct hs as [|h' hs'].
    + cbn. exact Hns.
    + apply Hset. discriminate.
Qed.

End TickInvariants.

Section StickyReturn.

Import Choreographer.

Variable winHeight : Q.

Local Abbreviation animate := (Choreographer.animate winHeight).
Local Abbreviation tickTarget := (Choreographer.tickTarget winHeight).
Local Abbreviation run := (Choreographer.run winHeight).

Lemma sticky_flag_stays_clear (hs : list Host) (s : State) :
  Forall belowThreshold hs ->
  wasInAnimationPhase s = false -> wasInAnimationPhase (run hs s) = false.
Proof.
  intros Hall Hf.
  destruct (wasInAnimationPhase (run hs s)) eqn:E; [|reflexivity].
  apply (sticky_flag_stays_set winHeight hs s Hall) in E. congruence.
Qed.

(** From a pose in the envelope, 107 ticks below the threshold are enough
    for the [settled] test to pass, so the flag cannot survive them. *)
Lemma sticky_run_settles (hs : list Host) (s : State) :
  Forall belowThreshold hs ->
  Envelope.holds (current s) ->
  (107 <= length hs)%nat ->
  wasInAnimationPhase (run hs s) = false.
Proof.
  intros Hall ((X0 & X1) & (RX0 & RX1) & (RY0 & RY1) & _) Hlen.
  destruct (wasInAnimationPhase (run hs s)) eqn:Hf; [exfalso|reflexivity].
  destruct (sticky_run_blends winHeight hs s Hall Hf) as (Ex & Erx & Ery & Hns).
  assert (Hne : hs <> []) by (intros ->; cbn in Hlen; lia).
  specialize (Hns Hne).
  assert (Hs : settled (current (run hs s)) = true); [|congruence].
  apply settled_iff.
  pose proof (Qpower_antitone (9#10) 107 (length hs)
                ltac:(lra) ltac:(lra) Hlen) as HP.
  pose proof (Qpower_antitone (92#100) 107 (length hs)
                ltac:(lra) ltac:(lra) Hlen) as HR.
  destruct (Qpower_unit_range (9#10) (length hs)) as [P0 _]; try lra.
  destruct (Qpower_unit_range (92#100) (length hs)) as [R0 _]; try lra.
  assert (HP107 : (9#10) ^ Z.of_nat 107 * 55 < 5#100) by reflexivity.
  assert (HR107 : (92#100) ^ Z.of_nat 107 * 720 < 1#10) by reflexivity.
  destruct (Qpower_unit_range (9#10) 107) as [P107 _]; try lra.
  destruct (Qpower_unit_range (92#100) 107) as [R107 _]; try lra.
  revert Ex Erx Ery HP HR P0 R0 HP107 HR107 P107 R107.
  generalize ((9#10) ^ Z.of_nat (length hs)), ((9#10) ^ Z.of_nat 107),
             ((92#100) ^ Z.of_nat (length hs)), ((92#100) ^ Z.of_nat 107).
  intros P P' R R' Ex Erx Ery HP HR P0 R0 HP107 HR107 P107 R107.
  rewrite !Qabs_Qlt_condition, Ex, Erx, Ery.
  repeat split; nra.
Qed.

(** With the flag clear, ticks below the threshold assign: after them the
    pose is the target of the last one. *)
Lemma sticky_run_tracks (hs : list Host) (h : Host) (s : State) :
  Forall belowThreshold (hs ++ [h]) ->
  wasInAnimationPhase s = false ->
  current (run (hs ++ [h]) s) = tickTarget h
  /\ wasInAnimationPhase (run (hs ++ [h]) s) = false.
Proof.
  intros Hall Hf. split.
  - apply Forall_app in Hall as [Hhs Hh]. inversion Hh; subst.
    rewrite run_snoc. apply animate_sticky_assign; [assumption|].
    now apply sticky_flag_stays_clear.
  - now apply sticky_flag_stays_clear.
Qed.

End StickyReturn.

(** ** More on the carousel *)

Section CarouselInvariants.

Import CardFan Wheels.

Local Open Scope Z_scope.

Lemma next_back_inverse (a : Z) :
  1 <= a <= 6 -> back (next a) = a /\ next (back a) = a.
Proof.
  intros Ha. unfold next, back.
  destruct (Z.geb_spec a 6), (Z.leb_spec a 1); cbn;
    repeat match goal with
           | |- context [?x >=? 6] => destruct (Z.geb_spec x 6)
           | |- context [?x <=? 1] => destruct (Z.leb_spec x 1)
           end; lia.
Qed.

Lemma next_six_times (a : Z) : 1 <= a <= 6 -> Nat.iter 6 next a = a.
Proof.
  intros Ha.
  assert (E : a = 1 \/ a = 2 \/ a = 3 \/ a = 4 \/ a = 5 \/ a = 6) by lia.
  destruct E as [->|[->|[->|[->|[->| ->]]]]]; reflexivity.
Qed.

Lemma step_accumBounded (e : Event) (s : State) :
  accumBounded s -> accumBounded (step e s).
Proof.
  unfold accumBounded. intros [Hlo Hhi]. destruct e; cbn [step].
  - unfold fire. destruct (existsb _ _); cbn; split; assumption.
  - unfold handleMouseEnter, stopAutoSwitch. cbn.
    destruct (intervalRef s); cbn; split; assumption.
  - unfold handleMouseLeave, startAutoSwitch. cbn.
    destruct (intervalRef s); cbn; split; lra.
  - unfold handleWheel. destruct (isHovering s); cbn [negb];
      [|split; assumption].
    cbn [scrollAccum setScrollAccum setActiveCard].
    destruct (Qlt_bool_spec 80 (scrollAccum s + delta deltaY deltaX));
      [cbn; split; lra|].
    destruct (Qlt_bool_spec (scrollAccum s + delta deltaY deltaX) (-(80)));
      cbn; split; lra.
Qed.

Lemma run_accumBounded (es : list Event) (s : State) :
  accumBounded s -> accumBounded (run es s).
Proof.
  revert s. induction es as [|e es IH]; intros s H; [exact H|].
  rewrite run_cons_card. apply IH, step_accumBounded, H.
Qed.

Lemma step_hoverPauses (e : Event) (s : State) :
  hoverPauses s -> hoverPauses (step e s).
Proof.
  unfold hoverPauses. intros H. destruct e; cbn [step].
  - unfold fire. now destruct (existsb _ _).
  - unfold handleMouseEnter, stopAutoSwitch. cbn.
    destruct (intervalRef s) eqn:E; cbn; rewrite ?E; split; reflexivity.
  - unfold handleMouseLeave, startAutoSwitch. cbn.
    destruct (intervalRef s) eqn:E; cbn; rewrite ?E; split; discriminate.
  - unfold handleWheel. destruct (isHovering s) eqn:E; cbn [negb];
      [|rewrite ?E; exact H].
    repeat match goal with
           | |- context [if ?b then _ else _] => destruct b
           end; cbn; rewrite ?E; exact H.
Qed.

Lemma run_hoverPauses (es : list Event) (s : State) :
  hoverPauses s -> hoverPauses (run es s).
Proof.
  revert s. induction es as [|e es IH]; intros s H; [exact H|].
  rewrite run_cons_card. apply IH, step_hoverPauses, H.
Qed.

Lemma mounted_hoverPauses : hoverPauses mounted.
Proof. unfold hoverPauses; cbn. split; discriminate. Qed.

(** While hovering, movements whose running totals stay small only
    accumulate. *)
Lemma run_small_wheels (ds : list (Q * Q)) (s : State) :
  isHovering s = true ->
  Wheels.small (scrollAccum s) ds ->
  run (Wheels.events ds) s
  = setScrollAccum (Wheels.total (scrollAccum s) ds) s.
Proof.
  revert s. induction ds as [|[dy dx] ds IH]; intros s Hh Hs.
  - cbn. now destruct s.
  - cbn [Wheels.small fst snd] in Hs. destruct Hs as [[Hlo Hhi] Hs].
    cbn [Wheels.events map fst snd]. rewrite run_cons_card. cbn [step].
    assert (E : handleWheel dy dx s
                = setScrollAccum (scrollAccum s + delta dy dx)%Q s).
    { unfold handleWheel. rewrite Hh. cbn [negb scrollAccum setScrollAccum].
      qtest. reflexivity. }
    rewrite E. fold (Wheels.events ds). rewrite IH; [reflexivity|exact Hh|exact Hs].
Qed.

End CarouselInvariants.

(** ** The marquee *)

Section MarqueeFacts.

Import Marquee.

Lemma marquee_run_cons (e : Event) (es : list Event) (s : State) :
  run (e :: es) s = run es (step e s).
Proof. reflexivity. Qed.

Lemma without_self (id : positive) : without id [id] = [].
Proof. unfold without; cbn. now rewrite Pos.eqb_refl. Qed.

Lemma without_keeps (id other : positive) (ids : list positive) :
  other <> id -> In other ids -> In other (without id ids).
Proof.
  intros Hne Hin. unfold without. apply filter_In. split; [assumption|].
  apply negb_true_iff, Pos.eqb_neq, Hne.
Qed.

Lemma existsb_eqb_In (id : positive) (ids : list positive) :
  In id ids -> existsb (Pos.eqb id) ids = true.
Proof.
  intros Hin. apply existsb_exists. exists id. split; [assumption|].
  apply Pos.eqb_refl.
Qed.

(** One event a pointer can produce keeps the marquee orderly. *)
Lemma step_orderly (e : Event) (inside inside' : bool) (s : State) :
  pointer inside [e] = Some inside' ->
  orderly inside s -> orderly inside' (step e s).
Proof.
  destruct e as [| |id]; cbn [pointer step]; destruct inside;
    try discriminate; intros [= <-]; unfold orderly.
  - intros [Hp Hn]. split; [|cbn; rewrite Hp; discriminate].
    right. exists (nextTimeout s). cbn. rewrite Hn. split; reflexivity.
  - intros [[Hn|(id & Hp & Hr)] _]; cbn.
    + rewrite Hn. split; [reflexivity|]. now destruct (marqueeTimeoutRef s).
    + rewrite Hr, Hp. split; [reflexivity|apply without_self].
  - intros [[Hn|(id' & Hp & Hr)] Hpaused]; unfold expire.
    + rewrite Hn. cbn. split; [now left|exact Hpaused].
    + replace (existsb (Pos.eqb id) (pending s)) with (Pos.eqb id id')
        by (rewrite Hp; cbn; now rewrite orb_false_r).
      destruct (Pos.eqb_spec id id') as [->|Hne]; cbn [orb].
      * cbn [pending marqueePaused marqueeTimeoutRef].
        rewrite Hp, without_self. split; [now left|reflexivity].
      * split; [right; now exists id'|exact Hpaused].
  - intros [Hp Hn]. unfold expire. rewrite Hn. cbn. now split.
Qed.

Lemma pointer_cons (inside inside' : bool) (e : Event) (es : list Event) :
  pointer inside (e :: es) = Some inside' ->
  exists mid : bool,
    pointer inside [e] = Some mid /\ pointer mid es = Some inside'.
Proof.
  destruct e; cbn; destruct inside; try discriminate; intros H;
    eexists; split; try reflexivity; exact H.
Qed.

Lemma run_orderly (es : list Event) (inside inside' : bool) (s : State) :
  pointer inside es = Some inside' ->
  orderly inside s -> orderly inside' (run es s).
Proof.
  revert inside s. induction es as [|e es IH]; intros inside s Hp Ho.
  - cbn in Hp. injection Hp as <-. exact Ho.
  - apply pointer_cons in Hp as (mid & H1 & H2).
    rewrite marquee_run_cons.
    apply (IH mid); [exact H2|]. now apply (step_orderly e inside).
Qed.

Lemma initial_orderly : orderly false initial.
Proof. now split. Qed.

End MarqueeFacts.

(** ** The form data *)

Section FormFacts.

Import Stdlib.Strings.String.
Import Form.

Lemma get_set_same (key value : string) (obj : FormData) :
  get key (set key value obj) = Some value.
Proof.
  induction obj as [|[k v] rest IH]; cbn.
  - now rewrite String.eqb_refl.
  - destruct (String.eqb_spec k key) as [->|Hne]; cbn.
    + now rewrite String.eqb_refl.
    + apply String.eqb_neq in Hne. now rewrite Hne.
Qed.

Lemma get_set_other (key other value : string) (obj : FormData) :
  other <> key -> get other (set key value obj) = get other obj.
Proof.
  intros Hne. induction obj as [|[k v] rest IH]; cbn.
  - destruct (String.eqb_spec key other); [congruence|reflexivity].
  - destruct (String.eqb_spec k key) as [->|Hk]; cbn.
    + destruct (String.eqb_spec key other); [congruence|reflexivity].
    + now rewrite IH.
Qed.

Lemma keys_set_present (key value : string) (obj : FormData) :
  In key (keys obj) -> keys (set key value obj) = keys obj.
Proof.
  unfold keys. induction obj as [|[k v] rest IH]; cbn; [tauto|].
  intros [->|Hin].
  - now rewrite String.eqb_refl.
  - destruct (String.eqb_spec k key) as [->|Hk]; cbn; [reflexivity|].
    now rewrite IH.
Qed.

Lemma keys_set_absent (key value : string) (obj : FormData) :
  ~ In key (keys obj) -> keys (set key value obj) = keys obj ++ [key].
Proof.
  unfold keys. induction obj as [|[k v] rest IH]; cbn; [reflexivity|].
  intros Hnin.
  destruct (String.eqb_spec k key) as [->|Hk]; [tauto|].
  cbn. rewrite IH; [reflexivity|tauto].
Qed.

Lemma changes_cons (e : string * string) (es : list (string * string))
    (obj : FormData) :
  changes (e :: es) obj = changes es (handleChange (fst e) (snd e) obj).
Proof. reflexivity. Qed.

Lemma changes_keys (es : list (string * string)) (obj : FormData) :
  Forall (fun e => In (fst e) (keys obj)) es ->
  keys (changes es obj) = keys obj.
Proof.
  revert obj. induction es as [|e es IH]; intros obj Hall; [reflexivity|].
  inversion Hall as [|? ? He Hes]; subst.
  rewrite changes_cons.
  assert (Ek : keys (handleChange (fst e) (snd e) obj) = keys obj)
    by now apply keys_set_present.
  rewrite IH; [exact Ek|]. now rewrite Ek.
Qed.

Lemma changes_latest (key : string) (es : list (string * string))
    (obj : FormData) :
  get key (changes es obj) = latest key es (get key obj).
Proof.
  revert obj. induction es as [|[k v] es IH]; intros obj; [reflexivity|].
  rewrite changes_cons, IH. unfold latest, handleChange. cbn [fold_left fst snd].
  destruct (String.eqb_spec k key) as [->|Hne].
  - now rewrite get_set_same.
  - rewrite get_set_other by congruence. reflexivity.
Qed.

End FormFacts.

(** ** Further properties of the choreographer *)

Section MoreChoreographer.

Import Choreographer.

(** X1.  For a negative progress the lookup returns the first waypoint's
    fields, x = 30, y = [RELEASE_Y], rotX = 0, rotY = 0, scale = 1: no pair
    matches and the [range <= 0] return is taken before any division. *)
Theorem lookup_below_zero (winHeight p : Q) :
  p < 0 ->
  getTargetFromScroll winHeight p = Pose.mk 30 (RELEASE_Y winHeight) 0 0 1
  /\ snd (Traced.getTargetFromScroll winHeight p) = [Traced.Lookup p].
Proof.
  intros Hp. split; [now apply getTarget_negative|].
  unfold Traced.getTargetFromScroll, lastWaypoint, firstWaypoint, waypoints.
  cbn [scan last hd Waypoint.scrollStart].
  qtest; cbn [Waypoint.scrollStart] in *; try lra; qtest; reflexivity.
Qed.

(** X2.  Whatever the progress, also outside [[0, 1]], the looked-up
    target has x between 10 and 85, rotX between 0 and 360, rotY between 0
    and 720 and scale between 0.3 and 1. *)
Theorem lookup_in_envelope (winHeight p : Q) :
  Envelope.holds (getTargetFromScroll winHeight p).
Proof. apply target_in_envelope. Qed.

(** X3.  Over the whole range of progress, across waypoints, the rotX and
    rotY of the looked-up target never decrease and its scale never
    increases as the progress grows. *)
Theorem rotation_targets_monotone (winHeight p q : Q) :
  p <= q ->
  Pose.rotX (getTargetFromScroll winHeight p)
  <= Pose.rotX (getTargetFromScroll winHeight q)
  /\ Pose.rotY (getTargetFromScroll winHeight p)
     <= Pose.rotY (getTargetFromScroll winHeight q)
  /\ Pose.scale (getTargetFromScroll winHeight q)
     <= Pose.scale (getTargetFromScroll winHeight p).
Proof. apply target_rotation_monotone. Qed.

(** X4.  The target does not jump at the threshold: at a scroll offset of
    150 the target of the animation regime has the values the sticky
    formula gives there, x = 30, y = 56 - offset / viewport height * 100,
    rotX = 0, rotY = 0, scale = 1, whatever the height of the page. *)
Theorem target_continuous_at_threshold (winHeight : Q) (h : Host) :
  0 < winHeight ->
  scrollY h == STICKY_THRESHOLD ->
  tickTarget winHeight h = getTargetFromScroll winHeight
                             (clampedProgress winHeight h)
  /\ Pose.eq (tickTarget winHeight h)
             (Pose.mk 30 (56 - scrollY h / winHeight * 100) 0 0 1).
Proof.
  intros Hw Hy.
  assert (Hge : STICKY_THRESHOLD <= scrollY h) by lra.
  split; [now apply tickTarget_animation|].
  destruct (tickTarget_progress_zero winHeight h Hge
              (scrollProgress_at_threshold winHeight h Hy))
    as (Ex & Ey & Erx & Ery & Es).
  repeat split; try assumption.
  rewrite Ey. cbn [Pose.y]. unfold RELEASE_Y. rewrite Hy. reflexivity.
Qed.

(** X5.  On a page with a positive scrollable range, scrolled to the end
    of the page or past it, the tick's target is the last waypoint, 50, 92,
    360, 720, 0.3. *)
Theorem target_at_page_end (winHeight : Q) (h : Host) :
  0 < scrollHeight h - winHeight - STICKY_THRESHOLD ->
  scrollHeight h - winHeight <= scrollY h ->
  tickTarget winHeight h = Pose.mk 50 92 360 720 (3#10).
Proof.
  intros Hm Hy.
  rewrite tickTarget_animation by lra.
  pose proof (scrollProgress_at_end winHeight h Hm Hy) as Hp.
  apply getTarget_from_last. cbn [lastWaypoint waypoints last Waypoint.scrollStart].
  unfold clampedProgress. rewrite (clamp_one _ Hp). lra.
Qed.

(** X6.  With a positive viewport height, on a page too short to have a
    scrollable range past the threshold, every tick at or above the
    threshold has the first waypoint as its target, x = 30,
    y = [RELEASE_Y], rotX = 0, rotY = 0, scale = 1. *)
Theorem short_page_target (winHeight : Q) (h : Host) :
  0 < winHeight ->
  scrollHeight h - winHeight - STICKY_THRESHOLD <= 0 ->
  STICKY_THRESHOLD <= scrollY h ->
  Pose.eq (tickTarget winHeight h) (Pose.mk 30 (RELEASE_Y winHeight) 0 0 1).
Proof.
  intros _ Hm Hy. apply tickTarget_progress_zero; [assumption|].
  rewrite (scrollProgress_guard winHeight h Hm). reflexivity.
Qed.

(** X7.  Whatever the host reports on each tick, the pose keeps x between
    10 and 85, rotX between 0 and 360, rotY between 0 and 720 and scale
    between 0.3 and 1. *)
Theorem pose_stays_in_envelope (winHeight : Q) (hs : list Host) :
  Envelope.holds (current (run winHeight hs init)).
Proof. apply run_envelope, init_envelope. Qed.

(** X8.  After any ticks the shared rotation ref holds the rotX and rotY of
    the pose. *)
Theorem model_rotation_mirrors (winHeight : Q) (hs : list Host) :
  modelRotationRef (run winHeight hs init)
  = (Pose.rotX (current (run winHeight hs init)),
     Pose.rotY (current (run winHeight hs init))).
Proof. apply run_mirrors. reflexivity. Qed.

(** X9.  Back below the threshold, the was-animating flag is clear after
    at most 107 ticks, from whatever state the earlier ticks [pre] left. *)
Theorem flag_clears_below_threshold
    (winHeight : Q) (pre hs : list Host) :
  Forall belowThreshold hs ->
  (107 <= length hs)%nat ->
  wasInAnimationPhase (run winHeight hs (run winHeight pre init)) = false.
Proof.
  intros Hall Hlen. apply sticky_run_settles; try assumption.
  apply run_envelope, init_envelope.
Qed.

(** X10.  With the flag clear, after any ticks below the threshold the
    pose is x = 30, y = 56 - offset / viewport height * 100, rotX = 0,
    rotY = 0, scale = 1 for the offset of the last tick alone, and the flag
    is still clear. *)
Theorem sticky_pose_tracks_scroll
    (winHeight : Q) (hs : list Host) (h : Host) (s : State) :
  Forall belowThreshold (hs ++ [h]) ->
  wasInAnimationPhase s = false ->
  current (run winHeight (hs ++ [h]) s)
  = Pose.mk 30 (56 - scrollY h / winHeight * 100) 0 0 1
  /\ wasInAnimationPhase (run winHeight (hs ++ [h]) s) = false.
Proof.
  intros Hall Hf.
  destruct (sticky_run_tracks winHeight hs h s Hall Hf) as [E1 E2].
  split; [|exact E2]. rewrite E1.
  apply Forall_app in Hall as [_ Hh]. inversion Hh as [|? ? Hb _]; subst.
  unfold tickTarget. unfold belowThreshold in Hb. qtest. reflexivity.
Qed.

End MoreChoreographer.

(** ** Further properties of the carousel, the marquee and the form *)

Section MoreComponents.

Local Open Scope Z_scope.

(** X11.  On the six cards, stepping forward and stepping back undo each
    other, and six steps forward come back to the same card. *)
Theorem next_back_round_trip (a : Z) :
  1 <= a <= 6 ->
  CardFan.back (CardFan.next a) = a
  /\ CardFan.next (CardFan.back a) = a
  /\ Nat.iter 6 CardFan.next a = a.
Proof.
  intros Ha. destruct (next_back_inverse a Ha) as [E1 E2].
  repeat split; try assumption. now apply next_six_times.
Qed.

(** X12.  In every state the carousel reaches, the wheel accumulator is
    between -80 and 80. *)
Theorem accumulator_bounded (es : list CardFan.Event) :
  Wheels.accumBounded (CardFan.run es CardFan.mounted).
Proof.
  apply run_accumBounded. unfold Wheels.accumBounded; cbn.
  split; discriminate.
Qed.

(** X13.  In every state the carousel reaches, the interval is cancelled
    exactly while the pointer is over a card, and the host has no live
    interval other than the one the ref holds. *)
Theorem interval_runs_unless_hovering (es : list CardFan.Event) :
  Wheels.hoverPauses (CardFan.run es CardFan.mounted)
  /\ CardFan.timers (CardFan.run es CardFan.mounted)
     = match CardFan.intervalRef (CardFan.run es CardFan.mounted) with
       | Some id => [id]
       | None => []
       end.
Proof.
  split.
  - apply run_hoverPauses, mounted_hoverPauses.
  - apply (run_consistent es CardFan.mounted mounted_consistent).
Qed.

(** X14.  The unmount cleanup, [stopAutoSwitch], in any state the carousel
    reaches, leaves no live interval: no later firing changes the state. *)
Theorem unmount_cancels_interval (es : list CardFan.Event) (id : positive) :
  CardFan.timers (CardFan.stopAutoSwitch (CardFan.run es CardFan.mounted))
  = []
  /\ CardFan.fire id (CardFan.stopAutoSwitch (CardFan.run es CardFan.mounted))
     = CardFan.stopAutoSwitch (CardFan.run es CardFan.mounted).
Proof.
  destruct (stopAutoSwitch_paused (CardFan.run es CardFan.mounted)
              (run_consistent es CardFan.mounted mounted_consistent))
    as [_ Ht].
  split; [exact Ht|]. unfold CardFan.fire. now rewrite Ht.
Qed.

(** X15.  While the pointer is over a card and the accumulator is a whole
    number between -80 and 80, wheel movements with whole-number deltas
    whose running totals stay between -80 and 80 only add up in the
    accumulator: the active card and everything else stay as they are. *)
Theorem small_wheels_accumulate (ds : list (Q * Q)) (s : CardFan.State) :
  CardFan.isHovering s = true ->
  Wheels.accumBounded s ->
  Wheels.whole (CardFan.scrollAccum s) ->
  Wheels.wholeDeltas ds ->
  Wheels.small (CardFan.scrollAccum s) ds ->
  CardFan.run (Wheels.events ds) s
  = CardFan.setScrollAccum (Wheels.total (CardFan.scrollAccum s) ds) s.
Proof. intros Hh _ _ _. now apply run_small_wheels. Qed.

(** X16.  Along events a pointer can produce, starting outside the track,
    the marquee is paused only while the pointer is inside; whenever the
    pointer is outside, the marquee runs and no timeout is scheduled; at
    most one timeout is ever scheduled. *)
Theorem marquee_pauses_only_inside (es : list Marquee.Event) (inside : bool) :
  Marquee.pointer false es = Some inside ->
  Marquee.orderly inside (Marquee.run es Marquee.initial)
  /\ (Marquee.marqueePaused (Marquee.run es Marquee.initial) = true ->
      inside = true)
  /\ (length (Marquee.pending (Marquee.run es Marquee.initial)) <= 1)%nat.
Proof.
  intros Hp.
  pose proof (run_orderly es false inside Marquee.initial Hp initial_orderly)
    as Ho.
  split; [exact Ho|]. unfold Marquee.orderly in Ho. destruct inside.
  - split; [reflexivity|].
    destruct Ho as [[->|(id & -> & _)] _]; cbn; lia.
  - destruct Ho as [Hpa ->]. split; [congruence|cbn; lia].
Qed.

(** X17.  [handleMarqueeEnter] does not clear a timeout that is already
    scheduled: after an enter and the following leave, such a timeout is
    still scheduled, and when it fires it pauses the marquee. *)
Theorem enter_keeps_scheduled_timeout (s : Marquee.State) (id : positive) :
  In id (Marquee.pending s) ->
  id <> Marquee.nextTimeout s ->
  In id (Marquee.pending
           (Marquee.handleMarqueeLeave (Marquee.handleMarqueeEnter s)))
  /\ Marquee.marqueePaused
       (Marquee.expire id
          (Marquee.handleMarqueeLeave (Marquee.handleMarqueeEnter s)))
     = true.
Proof.
  intros Hin Hne.
  assert (H : In id (Marquee.pending
                 (Marquee.handleMarqueeLeave (Marquee.handleMarqueeEnter s)))).
  { unfold Marquee.handleMarqueeLeave, Marquee.handleMarqueeEnter.
    cbn [Marquee.pending Marquee.marqueeTimeoutRef].
    apply without_keeps; [assumption|]. now right. }
  split; [exact H|]. unfold Marquee.expire.
  now rewrite (existsb_eqb_In id _ H).
Qed.

(** X18.  A change event sets the field it names and no other: reading
    that field gives the new value, every other field reads as before; the
    keys stay as they are when the field exists, and a new key that does
    not start with a digit is added last when it does not. *)
Theorem form_change_round_trip
    (name value : String.string) (formData : Form.FormData) :
  Form.get name (Form.handleChange name value formData) = Some value
  /\ (forall other : String.string,
        other <> name ->
        Form.get other (Form.handleChange name value formData)
        = Form.get other formData)
  /\ (In name (Form.keys formData) ->
      Form.keys (Form.handleChange name value formData) = Form.keys formData)
  /\ (~ In name (Form.keys formData) ->
      Form.digitFirst name = false ->
      Form.keys (Form.handleChange name value formData)
      = Form.keys formData ++ [name]).
Proof.
  unfold Form.handleChange. split; [apply get_set_same|].
  split; [intros other Hne; now apply get_set_other|].
  split; [apply keys_set_present | intros Hn _; now apply keys_set_absent].
Qed.

(** X19.  After any change events that name fields of the form, the form
    data has its four keys name, email, project, message in this order, and
    each field holds the value of the last event that named it, or its
    initial empty value when none did. *)
Theorem form_keeps_fields (es : list (String.string * String.string)) :
  Forall (fun e => In (fst e) (Form.keys Form.initial)) es ->
  Form.keys (Form.changes es Form.initial) = Form.keys Form.initial
  /\ forall key : String.string,
       Form.get key (Form.changes es Form.initial)
       = Form.latest key es (Form.get key Form.initial).
Proof.
  intros Hall. split; [now apply changes_keys|].
  intros key. apply changes_latest.
Qed.

End MoreComponents.

(** ** Concrete runs of the further properties *)

Section MoreRuns.

Import Choreographer.

Lemma lookup_below_zero_witness :
  getTargetFromScroll 1000 (-(1)) = Pose.mk 30 (RELEASE_Y 1000) 0 0 1.
Proof.
  destruct (lookup_below_zero 1000 (-(1))) as [E _].
  - reflexivity.
  - exact E.
Defined.

Lemma rotation_targets_monotone_witness :
  Pose.rotY (getTargetFromScroll 1000 (5#100))
  <= Pose.rotY (getTargetFromScroll 1000 (70#100)).
Proof.
  destruct (rotation_targets_monotone 1000 (5#100) (70#100)) as (_ & E & _).
  - vm_compute. discriminate.
  - exact E.
Defined.

Lemma target_continuous_at_threshold_witness :
  Pose.eq (tickTarget 1000 (mkHost 150 5000))
          (Pose.mk 30 (56 - 150 / 1000 * 100) 0 0 1).
Proof.
  destruct (target_continuous_at_threshold 1000 (mkHost 150 5000)) as [_ E].
  - reflexivity.
  - reflexivity.
  - exact E.
Defined.

Lemma target_at_page_end_witness :
  tickTarget 1000 (mkHost 4100 5000) = Pose.mk 50 92 360 720 (3#10).
Proof.
  apply (target_at_page_end 1000 (mkHost 4100 5000)).
  - reflexivity.
  - vm_compute. discriminate.
Defined.

Lemma short_page_target_witness :
  Pose.eq (tickTarget 1000 (mkHost 180 1100))
          (Pose.mk 30 (RELEASE_Y 1000) 0 0 1).
Proof.
  apply (short_page_target 1000 (mkHost 180 1100)).
  - reflexivity.
  - vm_compute. discriminate.
  - vm_compute. discriminate.
Defined.

Lemma flag_clears_below_threshold_witness :
  wasInAnimationPhase
    (run 1000 (repeat (mkHost 0 5000) 107)
         (run 1000 [mkHost 4000 5000] init)) = false.
Proof.
  apply (flag_clears_below_threshold 1000 [mkHost 4000 5000]
           (repeat (mkHost 0 5000) 107)).
  - simpl. repeat constructor.
  - simpl. apply le_n.
Defined.

Lemma sticky_pose_tracks_scroll_witness :
  current (run 1000 ([mkHost 20 5000] ++ [mkHost 100 5000]) init)
  = Pose.mk 30 (56 - 100 / 1000 * 100) 0 0 1.
Proof.
  destruct (sticky_pose_tracks_scroll 1000 [mkHost 20 5000]
              (mkHost 100 5000) init) as [E _].
  - simpl. repeat constructor.
  - reflexivity.
  - exact E.
Defined.

Lemma next_back_round_trip_witness :
  CardFan.back (CardFan.next 6) = 6%Z /\ Nat.iter 6 CardFan.next 6%Z = 6%Z.
Proof.
  destruct (next_back_round_trip 6) as (E1 & _ & E3).
  - lia.
  - split; [exact E1 | exact E3].
Defined.

Lemma small_wheels_accumulate_witness :
  CardFan.activeCard
    (CardFan.run (Wheels.events [(50, 0); (-(100), 0); (0, 60)])
                 (CardFan.handleMouseEnter CardFan.mounted)) = 1%Z.
Proof.
  rewrite (small_wheels_accumulate [(50, 0); (-(100), 0); (0, 60)]
             (CardFan.handleMouseEnter CardFan.mounted)).
  - reflexivity.
  - reflexivity.
  - vm_compute. intuition discriminate.
  - exists 0%Z. reflexivity.
  - repeat constructor;
      solve [ exists 50%Z; reflexivity | exists 0%Z; reflexivity
            | exists (-100)%Z; reflexivity | exists 60%Z; reflexivity ].
  - vm_compute. intuition discriminate.
Defined.

Lemma marquee_pauses_only_inside_witness :
  Marquee.marqueePaused
    (Marquee.run [Marquee.Enter; Marquee.Leave; Marquee.Expire 1]
                 Marquee.initial) = false.
Proof.
  destruct (marquee_pauses_only_inside
              [Marquee.Enter; Marquee.Leave; Marquee.Expire 1] false)
    as [[E _] _].
  - reflexivity.
  - exact E.
Defined.

Lemma enter_keeps_scheduled_timeout_witness :
  Marquee.marqueePaused
    (Marquee.run [Marquee.Enter; Marquee.Enter; Marquee.Leave;
                  Marquee.Expire 1] Marquee.initial) = true.
Proof.
  destruct (enter_keeps_scheduled_timeout
              (Marquee.handleMarqueeEnter Marquee.initial) 1) as [_ E].
  - simpl. left. reflexivity.
  - simpl. discriminate.
  - exact E.
Defined.

End MoreRuns.

Section FormRuns.

Import Stdlib.Strings.String.

Lemma form_keeps_fields_witness :
  Form.get "email"%string
    (Form.changes
       [("email"%string, "a"%string); ("name"%string, "n"%string);
        ("email"%string, "ab"%string)]
       Form.initial) = Some "ab"%string.
Proof.
  destruct (form_keeps_fields
              [("email"%string, "a"%string); ("name"%string, "n"%string);
               ("email"%string, "ab"%string)])
    as [_ E].
  - simpl. repeat constructor; simpl; tauto.
  - rewrite E. reflexivity.
Defined.

End FormRuns.
